(** * brawlfind: search, recommendation and trending queries of database-service.js

    A shallow embedding of the query construction and scoring logic of
    [searchVideos], [getVideoRecommendations], [getTrendingBrawlers] and
    [getPopularSearchQueries], together with the semantics of the MongoDB
    stages those functions hand to the store ([$in], [$setIntersection],
    [$size], [$group], [$sort], [$skip], [$limit]).

    Conventions.
    - Documents are the records written by [saveVideo], which stores the
      three classification arrays as arrays and the two derived scores as
      numbers, so these fields are always present.
    - Integers ([viewCount], [duration], counts, [page], [limit]) are [Z].
    - The stored doubles [popularity] and [recency] are rationals ([Q]);
      arithmetic on them is exact. The logarithm of the trending score
      lives in [R].
    - A rejected promise ([throw]) is the left injection of a sum. *)

From Stdlib Require Import ZArith QArith Reals Lra Ascii String OrderedTypeEx.
From stdpp Require Import base decidable option list sorting strings gmap.
From stdpp Require Import pretty.

Local Open Scope Z_scope.

(** ** Errors raised by the service or by the store *)

Inductive error : Type :=
  | VideoNotFound (youtubeId : string)
      (** [new Error(`Video ${youtubeId} not found`)] *)
  | SkipNegative (skip : Z)
      (** the store rejects a negative skip *)
  | LimitNotPositive (limit : Z)
      (** the store rejects a [$limit] stage that is not positive *).

Definition result (A : Type) : Type := (error + A)%type.

Definition mapResult {A B} (f : A → B) (r : result A) : result B :=
  match r with
  | inl e => inl e
  | inr x => inr (f x)
  end.

(** ** Documents of the [videos] collection *)

Record creator := Creator {
  creator_id : string;
  creator_name : string
}.

Record video := Video {
  youtubeId : string;
  title : string;
  video_creator : creator;
  publishedAt : string;
  duration : Z;
  viewCount : Z;
  brawlers : list string;
  gameModes : list string;
  contentType : list string;
  skillLevel : string;
  popularity : Q;
  recency : Q
}.

(** ** Aggregation operators *)

(** [$setIntersection]: the elements of the first array that occur in the
    second, each of them once. *)
Definition setIntersection (a b : list string) : list string :=
  remove_dups (filter (λ x, x ∈ b) a).

(** [$size] *)
Definition size_of (a : list string) : Z := Z.of_nat (length a).

(** [$limit: n] of an aggregation pipeline: [n] must be positive. *)
Definition stage_limit {A} (n : Z) (docs : list A) : result (list A) :=
  if decide (0 < n) then inr (take (Z.to_nat n) docs) else inl (LimitNotPositive n).

(** [$skip: n] of an aggregation pipeline: [n] must not be negative. *)
Definition stage_skip {A} (n : Z) (docs : list A) : result (list A) :=
  if decide (0 <= n) then inr (drop (Z.to_nat n) docs) else inl (SkipNegative n).

(** ** getVideoRecommendations *)

(** A candidate document after the [$addFields] stages. *)
Record scored := Scored {
  doc : video;
  similarityScore : Z;
  preferenceBoost : option Z;
  finalScore : Q
}.

(** [getVideoByYoutubeId]: [findOne({ youtubeId })] *)
Definition getVideoByYoutubeId (db : list video) (id : string) : option video :=
  find (λ v, bool_decide (youtubeId v = id)) db.

(** The first [$addFields] stage. *)
Definition baseSimilarity (sourceVideo candidate : video) : Z :=
  size_of (setIntersection (brawlers candidate) (brawlers sourceVideo)) * 3
  + size_of (setIntersection (gameModes candidate) (gameModes sourceVideo)) * 2
  + size_of (setIntersection (contentType candidate) (contentType sourceVideo)) * 1
  + (if decide (creator_id (video_creator candidate)
                = creator_id (video_creator sourceVideo)) then 4 else 0).

(** [userPreferences && userPreferences.preferredBrawlers &&
     userPreferences.preferredBrawlers.length > 0]; [None] stands for absent
    preferences or an absent [preferredBrawlers] field. *)
Definition hasPreferredBrawlers (preferredBrawlers : option (list string)) : bool :=
  match preferredBrawlers with
  | Some (_ :: _) => true
  | _ => false
  end.

(** The two optional [$addFields] stages: [preferenceBoost], then
    [similarityScore := similarityScore + preferenceBoost]. *)
Definition boostOf (preferredBrawlers : option (list string)) (candidate : video)
  : option Z :=
  if hasPreferredBrawlers preferredBrawlers
  then Some (size_of (setIntersection (brawlers candidate)
                                      (default [] preferredBrawlers)) * 1)
  else None.

Definition similarityOf (sourceVideo : video) (preferredBrawlers : option (list string))
    (candidate : video) : Z :=
  match boostOf preferredBrawlers candidate with
  | Some boost => baseSimilarity sourceVideo candidate + boost
  | None => baseSimilarity sourceVideo candidate
  end.

(** The last [$addFields] stage. *)
Definition finalScoreOf (similarity : Z) (candidate : video) : Q :=
  (inject_Z similarity + popularity candidate * 5 + recency candidate * 3)%Q.

Definition addScores (sourceVideo : video) (preferredBrawlers : option (list string))
    (candidate : video) : scored :=
  let s := similarityOf sourceVideo preferredBrawlers candidate in
  {| doc := candidate;
     similarityScore := s;
     preferenceBoost := boostOf preferredBrawlers candidate;
     finalScore := finalScoreOf s candidate |}.

(** [$sort: { finalScore: -1, publishedAt: -1 }]: does [a] come no later
    than [b]? Strings compare by their bytes. *)
Definition rankedBefore (a b : scored) : bool :=
  match (finalScore b ?= finalScore a)%Q with
  | Lt => true
  | Eq => String.leb (publishedAt (doc b)) (publishedAt (doc a))
  | Gt => false
  end.

Definition ranked (a b : scored) : Prop := rankedBefore a b = true.

#[global] Instance ranked_dec : RelDecision ranked.
Proof. intros a b. unfold ranked. apply _. Defined.

(** [$match: { youtubeId: { $ne: youtubeId } }] *)
Definition candidates (db : list video) (id : string) : list video :=
  filter (λ v, youtubeId v ≠ id) db.

Definition default_recommendation_limit : Z := 6.

(** [getVideoRecommendations(youtubeId, limit = 6, userPreferences = {})] *)
Definition getVideoRecommendations (db : list video) (id : string)
    (limit : option Z) (preferredBrawlers : option (list string))
  : result (list scored) :=
  match getVideoByYoutubeId db id with
  | None => inl (VideoNotFound id)
  | Some sourceVideo =>
      stage_limit (default default_recommendation_limit limit)
        (merge_sort ranked
           (addScores sourceVideo preferredBrawlers <$> candidates db id))
  end.

(** ** JavaScript values used by searchVideos *)

(** The result of [Math.ceil(total / limit)] on two integers: a division
    by zero gives an infinity, or [NaN] for [0 / 0]. *)
Inductive number : Type :=
  | Num (z : Z)
  | PosInfinity
  | NegInfinity
  | NaN.

Definition ceilDiv (total limit : Z) : number :=
  if decide (limit = 0) then
    match total ?= 0 with
    | Eq => NaN
    | Gt => PosInfinity
    | Lt => NegInfinity
    end
  else Num (- ((- total) `div` limit)).

(** The white space that [String.prototype.trim] removes, among the code
    units below 256 that a [string] holds: tab, line feed, vertical tab,
    form feed, carriage return, space and no-break space. *)
Definition isWhiteSpace (c : ascii) : bool :=
  let n := nat_of_ascii c in
  bool_decide (n = 9 ∨ n = 10 ∨ n = 11 ∨ n = 12 ∨ n = 13 ∨ n = 32 ∨ n = 160)%nat.

Fixpoint trimStart (s : string) : string :=
  match s with
  | String c s' => if isWhiteSpace c then trimStart s' else s
  | EmptyString => EmptyString
  end.

Fixpoint trimEnd (s : string) : string :=
  match s with
  | String c s' =>
      match trimEnd s' with
      | EmptyString => if isWhiteSpace c then EmptyString else String c EmptyString
      | t => String c t
      end
  | EmptyString => EmptyString
  end.

Definition trim (s : string) : string := trimEnd (trimStart s).

(** Truthiness of a string. *)
Definition truthy (s : string) : bool := negb (String.eqb s "").

(** [query && query.trim() !== ''] *)
Definition hasText (query : string) : bool :=
  truthy query && negb (String.eqb (trim query) "").

(** ** searchVideos *)

(** The text index of the store: which documents a [$text] search selects,
    and the [textScore] it gives them. *)
Record textIndex := TextIndex {
  textMatches : string → video → bool;
  textScore : string → video → Q
}.

Module Params.
(** The destructured [params], defaults applied. *)
Record t := Make {
  query : string;
  brawlers : list string;
  gameModes : list string;
  contentType : list string;
  skillLevel : string;
  sortBy : string;
  limit : Z;
  page : Z;
  minViews : Z;
  maxDuration : Z;
  dateFrom : string;
  dateTo : string;
  channelId : string
}.

Definition defaults : t :=
  {| query := ""; brawlers := []; gameModes := []; contentType := [];
     skillLevel := ""; sortBy := "relevance"; limit := 20; page := 1;
     minViews := 0; maxDuration := 0; dateFrom := ""; dateTo := "";
     channelId := "" |}.
End Params.

Module Query.
(** [dbQuery]: a field is [None] when the object has no such key. *)
Record t := Make {
  text : option string;               (* $text: { $search } *)
  brawlers : option (list string);    (* brawlers: { $in } *)
  gameModes : option (list string);   (* gameModes: { $in } *)
  contentType : option (list string); (* contentType: { $in } *)
  skillLevel : option string;
  creatorId : option string;          (* 'creator.id' *)
  viewCount : option Z;               (* viewCount: { $gte } *)
  duration : option Z;                (* duration: { $lte } *)
  publishedAt : option (option string * option string)  (* { $gte, $lte } *)
}.

Definition empty : t :=
  {| text := None; brawlers := None; gameModes := None; contentType := None;
     skillLevel := None; creatorId := None; viewCount := None;
     duration := None; publishedAt := None |}.
End Query.

Definition when {A} (b : bool) (x : A) : option A := if b then Some x else None.

(** "Build the query" *)
Definition buildQuery (p : Params.t) : Query.t :=
  {| Query.text := when (hasText (Params.query p)) (Params.query p);
     Query.brawlers :=
       when (bool_decide (0 < length (Params.brawlers p))%nat) (Params.brawlers p);
     Query.gameModes :=
       when (bool_decide (0 < length (Params.gameModes p))%nat) (Params.gameModes p);
     Query.contentType :=
       when (bool_decide (0 < length (Params.contentType p))%nat) (Params.contentType p);
     Query.skillLevel := when (truthy (Params.skillLevel p)) (Params.skillLevel p);
     Query.creatorId := when (truthy (Params.channelId p)) (Params.channelId p);
     Query.viewCount := when (bool_decide (0 < Params.minViews p)) (Params.minViews p);
     Query.duration := when (bool_decide (0 < Params.maxDuration p)) (Params.maxDuration p);
     Query.publishedAt :=
       when (truthy (Params.dateFrom p) || truthy (Params.dateTo p))
            (when (truthy (Params.dateFrom p)) (Params.dateFrom p),
             when (truthy (Params.dateTo p)) (Params.dateTo p)) |}.

(** A constraint that is absent holds. *)
Definition holds {A} (c : option A) (test : A → bool) : bool :=
  match c with
  | Some x => test x
  | None => true
  end.

(** [{ field: { $in: values } }] on an array field: some element of the
    array is one of the values. *)
Definition inAny (field values : list string) : bool :=
  existsb (λ x, bool_decide (x ∈ values)) field.

(** Evaluation of [dbQuery] on one document. *)
Definition matches (idx : textIndex) (q : Query.t) (v : video) : bool :=
  holds (Query.text q) (λ s, textMatches idx s v)
  && holds (Query.brawlers q) (inAny (brawlers v))
  && holds (Query.gameModes q) (inAny (gameModes v))
  && holds (Query.contentType q) (inAny (contentType v))
  && holds (Query.skillLevel q) (String.eqb (skillLevel v))
  && holds (Query.creatorId q) (String.eqb (creator_id (video_creator v)))
  && holds (Query.viewCount q) (λ n, n <=? viewCount v)
  && holds (Query.duration q) (λ n, duration v <=? n)
  && holds (Query.publishedAt q) (λ r,
       holds r.1 (λ from, String.leb from (publishedAt v))
       && holds r.2 (λ to, String.leb (publishedAt v) to)).

(** One key of [sortOptions]. *)
Inductive sortOrder : Type :=
  | Descending      (* -1 *)
  | MetaTextScore.  (* { $meta: 'textScore' } *)

Definition sortSpec : Type := list (string * sortOrder).

(** "Determine sort order" *)
Definition sortOptions (p : Params.t) : sortSpec :=
  let sortBy := Params.sortBy p in
  if String.eqb sortBy "relevance" then
    if hasText (Params.query p)
    then [("score", MetaTextScore)]
    else [("popularity", Descending)]
  else if String.eqb sortBy "recent" then [("publishedAt", Descending)]
  else if String.eqb sortBy "popular" then [("viewCount", Descending)]
  else if String.eqb sortBy "trending" then
    [("recency", Descending); ("popularity", Descending)]
  else [("popularity", Descending)].

(** Comparison of two documents on one sort field; a field the documents
    do not have compares equal. *)
Definition fieldCompare (field : string) (a b : video) : comparison :=
  if String.eqb field "popularity" then (popularity a ?= popularity b)%Q
  else if String.eqb field "recency" then (recency a ?= recency b)%Q
  else if String.eqb field "viewCount" then viewCount a ?= viewCount b
  else if String.eqb field "publishedAt" then String.compare (publishedAt a) (publishedAt b)
  else Eq.

(** Both orders put the larger value first. *)
Definition keyCompare (idx : textIndex) (query : string)
    (key : string * sortOrder) (a b : video) : comparison :=
  match key.2 with
  | Descending => fieldCompare key.1 b a
  | MetaTextScore => (textScore idx query b ?= textScore idx query a)%Q
  end.

(** The keys of the sort specification are compared in their order. *)
Fixpoint sortCompare (idx : textIndex) (query : string) (spec : sortSpec)
    (a b : video) : comparison :=
  match spec with
  | [] => Eq
  | key :: spec' =>
      match keyCompare idx query key a b with
      | Eq => sortCompare idx query spec' a b
      | c => c
      end
  end.

Definition sortedBefore (idx : textIndex) (query : string) (spec : sortSpec)
    (a b : video) : Prop :=
  sortCompare idx query spec a b ≠ Gt.

#[global] Instance sortedBefore_dec idx query spec : RelDecision (sortedBefore idx query spec).
Proof. intros a b. unfold sortedBefore. apply _. Defined.

(** [cursor.sort(sortOptions)], applied when the specification has a key. *)
Definition cursorSort (idx : textIndex) (query : string) (spec : sortSpec)
    (docs : list video) : list video :=
  match spec with
  | [] => docs
  | _ => merge_sort (sortedBefore idx query spec) docs
  end.

(** [cursor.skip(skip).limit(limit).toArray()]: the store rejects a
    negative skip; a limit of zero is no limit, and a negative limit asks
    for that many documents. *)
Definition cursorSkipLimit (skip limit : Z) (docs : list video) : result (list video) :=
  if decide (skip < 0) then inl (SkipNegative skip)
  else
    let rest := drop (Z.to_nat skip) docs in
    inr (if decide (limit = 0) then rest else take (Z.to_nat (Z.abs limit)) rest).

Record pagination := Pagination {
  total : Z;
  page : Z;
  limit : Z;
  pages : number
}.

Record searchResult := SearchResult {
  videos : list video;
  search_pagination : pagination
}.

(** The documents selected by [dbQuery], in the order of [sortOptions]. *)
Definition selected (idx : textIndex) (db : list video) (p : Params.t) : list video :=
  cursorSort idx (Params.query p) (sortOptions p)
    (filter (λ v, matches idx (buildQuery p) v = true) db).

Definition skipOf (p : Params.t) : Z := (Params.page p - 1) * Params.limit p.

(** [searchVideos(params)] *)
Definition searchVideos (idx : textIndex) (db : list video) (p : Params.t)
  : result searchResult :=
  let total := Z.of_nat (length (filter (λ v, matches idx (buildQuery p) v = true) db)) in
  match cursorSkipLimit (skipOf p) (Params.limit p) (selected idx db p) with
  | inl e => inl e
  | inr videos =>
      inr {| videos := videos;
             search_pagination :=
               {| total := total;
                  page := Params.page p;
                  limit := Params.limit p;
                  pages := ceilDiv total (Params.limit p) |} |}
  end.

(** ** The [$group] stage *)

(** One more row for the group of key [k]: a new group starts from [new],
    an existing one is advanced by [step]. *)
Fixpoint accumulate {S} (k : string) (new : S) (step : S → S)
    (groups : list (string * S)) : list (string * S) :=
  match groups with
  | [] => [(k, new)]
  | (k', s) :: groups' =>
      if decide (k = k') then (k', step s) :: groups'
      else (k', s) :: accumulate k new step groups'
  end.

Definition groupBy {A S} (key : A → string) (new : A → S) (step : A → S → S)
    (rows : list A) : list (string * S) :=
  foldl (λ groups r, accumulate (key r) (new r) (step r) groups) [] rows.

(** ** getTrendingBrawlers *)

Definition log10 (x : R) : R := (ln x / ln 10)%R.

(** [$add: [count * 1, $log10(totalViews + 1) * 2]] *)
Definition trendingScore (count totalViews : Z) : R :=
  (IZR count * 1 + log10 (IZR totalViews + 1) * 2)%R.

Module Trending.
Record t := Make {
  brawler : string;
  count : Z;
  totalViews : Z;
  score : R
}.
End Trending.

(** [$match: { publishedAt: { $gte: startDate } }]; [startDate] is the ISO
    string of the start of the window. *)
Definition inWindow (startDate : string) (v : video) : Prop :=
  String.leb startDate (publishedAt v) = true.

#[global] Instance inWindow_dec startDate v : Decision (inWindow startDate v).
Proof. unfold inWindow. apply _. Defined.

(** [$unwind: "$brawlers"]: one row per element of the array. *)
Definition unwindBrawlers (docs : list video) : list (string * video) :=
  v ← docs; (λ b, (b, v)) <$> brawlers v.

(** [$group: { _id: "$brawlers", count: { $sum: 1 },
               totalViews: { $sum: "$viewCount" } }] *)
Definition groupBrawlers (rows : list (string * video)) : list (string * (Z * Z)) :=
  groupBy fst (λ r, (1, viewCount r.2))
          (λ r s, (s.1 + 1, s.2 + viewCount r.2)) rows.

Definition addTrendingScore (g : string * (Z * Z)) : Trending.t :=
  {| Trending.brawler := g.1;
     Trending.count := g.2.1;
     Trending.totalViews := g.2.2;
     Trending.score := trendingScore g.2.1 g.2.2 |}.

(** [$sort: { score: -1 }] *)
Definition byScore (a b : Trending.t) : Prop :=
  (Trending.score b <= Trending.score a)%R.

#[global] Instance byScore_dec : RelDecision byScore.
Proof. intros a b. unfold byScore. apply Rle_dec. Defined.

Definition trendingEntries (db : list video) (startDate : string) : list Trending.t :=
  addTrendingScore <$> groupBrawlers (unwindBrawlers (filter (inWindow startDate) db)).

Definition default_trending_limit : Z := 10.

(** [getTrendingBrawlers(limit = 10, days = 30)] *)
Definition getTrendingBrawlers (db : list video) (limit : option Z) (startDate : string)
  : result (list Trending.t) :=
  stage_limit (default default_trending_limit limit)
    (merge_sort byScore (trendingEntries db startDate)).

(** ** getPopularSearchQueries *)

(** A row of the [searchHistory] collection. *)
Record searchRow := SearchRow {
  row_query : string;
  row_timestamp : string
}.

Module Popular.
Record t := Make {
  query : string;
  count : Z
}.
End Popular.

Record popularResult := PopularResult {
  queries : list Popular.t;
  popular_pagination : pagination
}.

(** [$group: { _id: "$query", count: { $sum: 1 } }] *)
Definition groupQueries (rows : list searchRow) : list (string * Z) :=
  groupBy row_query (λ _, 1) (λ _ c, c + 1) rows.

(** [$sort: { count: -1 }] *)
Definition byCount (a b : string * Z) : Prop := b.2 <= a.2.

#[global] Instance byCount_dec : RelDecision byCount.
Proof. intros a b. unfold byCount. apply _. Defined.

Definition popularEntries (history : list searchRow) (startDate : string)
  : list (string * Z) :=
  merge_sort byCount
    (groupQueries (filter (λ r, String.leb startDate (row_timestamp r) = true) history)).

(** [$project: { _id: 0, query: "$_id", count: 1 }] *)
Definition projectQuery (g : string * Z) : Popular.t :=
  {| Popular.query := g.1; Popular.count := g.2 |}.

(** [getPopularSearchQueries(limit = 10, days = 30, page = 1)] *)
Definition getPopularSearchQueries (history : list searchRow) (limit : Z)
    (startDate : string) (page : Z) : result popularResult :=
  let skip := (page - 1) * limit in
  let sorted := popularEntries history startDate in
  match stage_skip skip sorted with
  | inl e => inl e
  | inr skipped =>
      match stage_limit limit skipped with
      | inl e => inl e
      | inr data =>
          let total := Z.of_nat (length sorted) in
          inr {| queries := projectQuery <$> data;
                 popular_pagination :=
                   {| total := total; page := page; limit := limit;
                      pages := ceilDiv total limit |} |}
      end
  end.

(** ** Vocabulary of the properties *)

(** The number of elements two arrays have in common, as sets. *)
Definition common (a b : list string) : Z :=
  Z.of_nat (size ((list_to_set a : gset string) ∩ list_to_set b)).

(** Two arrays have an element in common. *)
Definition intersects (a b : list string) : Prop :=
  (list_to_set a : gset string) ∩ list_to_set b ≠ ∅.

(** [a] may stand before [b]: a larger final score, or the same final
    score and a publish timestamp that is not earlier. *)
Definition rankedSpec (a b : scored) : Prop :=
  (finalScore b < finalScore a)%Q
  ∨ ((finalScore a == finalScore b)%Q
     ∧ String.leb (publishedAt (doc b)) (publishedAt (doc a)) = true).

(** The orders named by the sort modes. *)
Definition byTextScore (idx : textIndex) (query : string) (a b : video) : Prop :=
  (textScore idx query b <= textScore idx query a)%Q.

Definition byPopularity (a b : video) : Prop := (popularity b <= popularity a)%Q.

Definition byPublishedAt (a b : video) : Prop :=
  String.leb (publishedAt b) (publishedAt a) = true.

Definition byViewCount (a b : video) : Prop := viewCount b <= viewCount a.

Definition byRecencyThenPopularity (a b : video) : Prop :=
  (recency b < recency a)%Q
  ∨ ((recency a == recency b)%Q ∧ (popularity b <= popularity a)%Q).

(** The accumulator of the group of key [k], if there is one. *)
Fixpoint groupOf {S} (k : string) (groups : list (string * S)) : option S :=
  match groups with
  | [] => None
  | (k', s) :: groups' => if decide (k = k') then Some s else groupOf k groups'
  end.

(** The effect of one row on the accumulator of key [k]. *)
Definition advance {A S} (key : A → string) (new : A → S) (step : A → S → S)
    (k : string) (o : option S) (r : A) : option S :=
  if decide (k = key r) then Some (from_option (step r) (new r) o) else o.

(** The rows of the trailing window that mention brawler [b], one per
    occurrence of [b] in the [brawlers] array of a document. *)
Definition mentionsOf (b : string) (db : list video) (startDate : string)
  : list (string * video) :=
  filter (λ r, r.1 = b) (unwindBrawlers (filter (inWindow startDate) db)).

Definition viewsOf (rows : list (string * video)) : Z :=
  foldr (λ r t, viewCount r.2 + t) 0 rows.

(** The rows of the search history of the trailing window with query [q]. *)
Definition searchesOf (q : string) (history : list searchRow) (startDate : string)
  : list searchRow :=
  filter (λ r, row_query r = q)
         (filter (λ r, String.leb startDate (row_timestamp r) = true) history).

(** [$sort: { count: -1 }] on the projected entries. *)
Definition byQueryCount (a b : Popular.t) : Prop := Popular.count b <= Popular.count a.

(** ** Sample documents *)

Definition sampleCreator : creator :=
  {| creator_id := "UC-lex"; creator_name := "Lex" |}.

Definition otherCreator : creator :=
  {| creator_id := "UC-kairos"; creator_name := "KairosTime" |}.

Definition mortisVideo : video :=
  {| youtubeId := "vid-mortis"; title := "Mortis guide";
     video_creator := sampleCreator;
     publishedAt := "2024-03-01T10:00:00.000Z";
     duration := 600; viewCount := 500000;
     brawlers := ["Mortis"]; gameModes := ["Brawl Ball"];
     contentType := ["tutorial"]; skillLevel := "advanced";
     popularity := 4 # 5; recency := 1 # 2 |}.

Definition mortisColtVideo : video :=
  {| youtubeId := "vid-mortis-colt"; title := "Mortis and Colt in Brawl Ball";
     video_creator := sampleCreator;
     publishedAt := "2024-04-15T18:30:00.000Z";
     duration := 420; viewCount := 200000;
     brawlers := ["Mortis"; "Colt"]; gameModes := ["Brawl Ball"];
     contentType := ["tutorial"]; skillLevel := "intermediate";
     popularity := 1 # 2; recency := 3 # 4 |}.

Definition shellyVideo : video :=
  {| youtubeId := "vid-shelly"; title := "Shelly for beginners";
     video_creator := otherCreator;
     publishedAt := "2024-02-20T08:00:00.000Z";
     duration := 300; viewCount := 900000;
     brawlers := ["Shelly"]; gameModes := ["Gem Grab"];
     contentType := ["gameplay"]; skillLevel := "beginner";
     popularity := 3 # 10; recency := 1 # 4 |}.

Definition mortisSequel : video :=
  {| youtubeId := "vid-mortis-2"; title := "Mortis guide, part two";
     video_creator := sampleCreator;
     publishedAt := "2024-03-08T10:00:00.000Z";
     duration := 540; viewCount := 150000;
     brawlers := ["Mortis"]; gameModes := ["Brawl Ball"];
     contentType := ["tutorial"]; skillLevel := "advanced";
     popularity := 2 # 5; recency := 3 # 5 |}.

Definition sampleDb : list video := [mortisVideo; mortisColtVideo; shellyVideo].

(** A text index that selects the documents whose title is the query. *)
Definition sampleIndex : textIndex :=
  {| textMatches := λ q v, String.eqb q (title v);
     textScore := λ q v, if String.eqb q (title v) then 1%Q else 0%Q |}.

(** ** Sample requests *)

(** The request with its three set filters removed. *)
Definition withoutSets (p : Params.t) : Params.t :=
  {| Params.query := Params.query p;
     Params.brawlers := []; Params.gameModes := []; Params.contentType := [];
     Params.skillLevel := Params.skillLevel p; Params.sortBy := Params.sortBy p;
     Params.limit := Params.limit p; Params.page := Params.page p;
     Params.minViews := Params.minViews p; Params.maxDuration := Params.maxDuration p;
     Params.dateFrom := Params.dateFrom p; Params.dateTo := Params.dateTo p;
     Params.channelId := Params.channelId p |}.

(** [{ brawlers, sortBy }], the other parameters left to their defaults. *)
Definition request (brawlers : list string) (sortBy : string) : Params.t :=
  {| Params.query := ""; Params.brawlers := brawlers; Params.gameModes := [];
     Params.contentType := []; Params.skillLevel := ""; Params.sortBy := sortBy;
     Params.limit := 20; Params.page := 1; Params.minViews := 0;
     Params.maxDuration := 0; Params.dateFrom := ""; Params.dateTo := "";
     Params.channelId := "" |}.

(** [{ page, limit }], the other parameters left to their defaults. *)
Definition pageRequest (page limit : Z) : Params.t :=
  {| Params.query := ""; Params.brawlers := []; Params.gameModes := [];
     Params.contentType := []; Params.skillLevel := ""; Params.sortBy := "relevance";
     Params.limit := limit; Params.page := page; Params.minViews := 0;
     Params.maxDuration := 0; Params.dateFrom := ""; Params.dateTo := "";
     Params.channelId := "" |}.

(** A store of twenty-five documents. *)
Definition manyVideos : list video := replicate 25 mortisVideo.

(** A search history: three searches for [mortis], two for [shelly guide],
    and one for [colt] that is older than the others. *)
Definition sampleHistory : list searchRow :=
  [ {| row_query := "mortis"; row_timestamp := "2024-03-02T09:00:00.000Z" |};
    {| row_query := "shelly guide"; row_timestamp := "2024-03-03T09:00:00.000Z" |};
    {| row_query := "mortis"; row_timestamp := "2024-03-04T09:00:00.000Z" |};
    {| row_query := "colt"; row_timestamp := "2023-11-20T09:00:00.000Z" |};
    {| row_query := "shelly guide"; row_timestamp := "2024-03-05T09:00:00.000Z" |};
    {| row_query := "mortis"; row_timestamp := "2024-03-06T09:00:00.000Z" |} ].

(** * Further operations of the service *)

(** ** getVideosByBrawler, getVideosByGameMode *)

(** [cursor.limit(limit)]: a limit of zero is no limit, and a negative
    limit asks for that many documents. *)
Definition cursorLimit (limit : Z) (docs : list video) : list video :=
  if decide (limit = 0) then docs else take (Z.to_nat (Z.abs limit)) docs.

(** [cursor.sort({ popularity: -1 })] *)
Definition popularityFirst (a b : video) : Prop :=
  fieldCompare "popularity" b a ≠ Gt.

#[global] Instance popularityFirst_dec : RelDecision popularityFirst.
Proof. intros a b. unfold popularityFirst. apply _. Defined.

Definition default_listing_limit : Z := 10.

(** [getVideosByBrawler(brawler, limit = 10)]; [find({ brawlers: brawler })]
    selects the documents whose array has the element. *)
Definition getVideosByBrawler (db : list video) (brawler : string) (limit : option Z)
  : list video :=
  cursorLimit (default default_listing_limit limit)
    (merge_sort popularityFirst (filter (λ v, brawler ∈ brawlers v) db)).

(** [getVideosByGameMode(gameMode, limit = 10)] *)
Definition getVideosByGameMode (db : list video) (gameMode : string) (limit : option Z)
  : list video :=
  cursorLimit (default default_listing_limit limit)
    (merge_sort popularityFirst (filter (λ v, gameMode ∈ gameModes v) db)).

(** ** getAllBrawlers, getAllGameModes *)

(** [$unwind: "$gameModes"] *)
Definition unwindGameModes (docs : list video) : list (string * video) :=
  v ← docs; (λ m, (m, v)) <$> gameModes v.

(** [$group: { _id: "$brawlers" }]: a group per value, with no accumulator. *)
Definition groupIds (rows : list (string * video)) : list (string * ()) :=
  groupBy fst (λ _, ()) (λ _ u, u) rows.

(** [$sort: { _id: 1 }] *)
Definition ascendingId (a b : string * ()) : Prop := String.leb a.1 b.1 = true.

#[global] Instance ascendingId_dec : RelDecision ascendingId.
Proof. intros a b. unfold ascendingId. apply _. Defined.

(** [getAllBrawlers()] *)
Definition getAllBrawlers (db : list video) : list string :=
  (merge_sort ascendingId (groupIds (unwindBrawlers db))).*1.

(** [getAllGameModes()] *)
Definition getAllGameModes (db : list video) : list string :=
  (merge_sort ascendingId (groupIds (unwindGameModes db))).*1.

(** ** getDatabaseStats *)

(** [Array.prototype.includes] then [push]; also the step of [$addToSet]. *)
Definition pushIfAbsent (set : list string) (x : string) : list string :=
  if decide (x ∈ set) then set else set ++ [x].

Record arrayStats := ArrayStats {
  stats_count : Z;
  stats_unique : Z
}.

(** [$group: { _id: null, count: { $sum: 1 }, unique: { $addToSet } }]
    followed by [$project: { unique: { $size: "$unique" } }]: one group
    for all the rows, none when there is no row. *)
Definition groupAll (values : list string) : list arrayStats :=
  match values with
  | [] => []
  | x :: rest =>
      let s := foldl (λ s y, (s.1 + 1, pushIfAbsent s.2 y)) (1, [x]) rest in
      [ {| stats_count := s.1; stats_unique := Z.of_nat (length s.2) |} ]
  end.

(** [cursor.sort({ publishedAt: -1 })] *)
Definition publishedFirst (a b : video) : Prop :=
  fieldCompare "publishedAt" b a ≠ Gt.

#[global] Instance publishedFirst_dec : RelDecision publishedFirst.
Proof. intros a b. unfold publishedFirst. apply _. Defined.

Module Stats.
Record t := Make {
  videoCount : Z;
  channelCount : Z;
  userCount : Z;
  feedbackCount : Z;
  brawlerStats : arrayStats;
  gameModeStats : arrayStats;
  mostRecentVideo : option string;
  lastUpdated : string
}.
End Stats.

(** [getDatabaseStats()]; [channels], [users] and [feedback] are the
    numbers of documents of the three other collections, [now] the ISO
    string of the current time. *)
Definition getDatabaseStats (db : list video) (channels users feedback : Z)
    (now : string) : Stats.t :=
  let recentVideos := cursorLimit 1 (merge_sort publishedFirst db) in
  {| Stats.videoCount := Z.of_nat (length db);
     Stats.channelCount := channels;
     Stats.userCount := users;
     Stats.feedbackCount := feedback;
     Stats.brawlerStats :=
       default {| stats_count := 0; stats_unique := 0 |}
               (head (groupAll (unwindBrawlers db).*1));
     Stats.gameModeStats :=
       default {| stats_count := 0; stats_unique := 0 |}
               (head (groupAll (unwindGameModes db).*1));
     Stats.mostRecentVideo := publishedAt <$> head recentVideos;
     Stats.lastUpdated := now |}.

(** ** getPopularContentCreators *)

(** The accumulators of [$group: { _id: "$creator.id", name: { $first },
    url: { $first }, videoCount: { $sum: 1 }, totalViews: { $sum } }]. *)
Record creatorGroup := CreatorGroup {
  group_name : string;
  group_url : option string;
  group_videoCount : Z;
  group_totalViews : Z
}.

Module Creator.
Record t := Make {
  id : string;
  name : string;
  url : option string;
  videoCount : Z;
  totalViews : Z
}.
End Creator.

Record creatorsResult := CreatorsResult {
  creators : list Creator.t;
  creators_pagination : pagination
}.

(** [url] reads the [creator.url] field of a document. *)
Definition groupCreators (url : video → option string) (db : list video)
  : list (string * creatorGroup) :=
  groupBy (λ v, creator_id (video_creator v))
          (λ v, {| group_name := creator_name (video_creator v);
                   group_url := url v;
                   group_videoCount := 1;
                   group_totalViews := viewCount v |})
          (λ v g, {| group_name := group_name g;
                     group_url := group_url g;
                     group_videoCount := group_videoCount g + 1;
                     group_totalViews := group_totalViews g + viewCount v |})
          db.

(** [$sort: { totalViews: -1 }] *)
Definition byTotalViews (a b : string * creatorGroup) : Prop :=
  group_totalViews b.2 <= group_totalViews a.2.

#[global] Instance byTotalViews_dec : RelDecision byTotalViews.
Proof. intros a b. unfold byTotalViews. apply _. Defined.

(** [$project: { _id: 0, id: "$_id", name: 1, url: 1, videoCount: 1,
                 totalViews: 1 }] *)
Definition projectCreator (g : string * creatorGroup) : Creator.t :=
  {| Creator.id := g.1;
     Creator.name := group_name g.2;
     Creator.url := group_url g.2;
     Creator.videoCount := group_videoCount g.2;
     Creator.totalViews := group_totalViews g.2 |}.

(** [getPopularContentCreators(limit = 10, page = 1)] *)
Definition getPopularContentCreators (url : video → option string) (db : list video)
    (limit page : Z) : result creatorsResult :=
  let skip := (page - 1) * limit in
  let groups := groupCreators url db in
  match stage_skip skip (merge_sort byTotalViews groups) with
  | inl e => inl e
  | inr skipped =>
      match stage_limit limit skipped with
      | inl e => inl e
      | inr data =>
          let total := Z.of_nat (length groups) in
          inr {| creators := projectCreator <$> data;
                 creators_pagination :=
                   {| total := total; page := page; limit := limit;
                      pages := ceilDiv total limit |} |}
      end
  end.

(** ** saveSearchQuery *)

(** [saveSearchQuery(query, filters, userId, sessionId)] at time [now].
    [inserted] tells whether [insertOne] succeeded: a failure is logged
    and not thrown. The row has the fields that the aggregations read. *)
Definition saveSearchQuery (history : list searchRow) (query now : string)
    (inserted : bool) : list searchRow :=
  if inserted
  then history ++ [ {| row_query := query; row_timestamp := now |} ]
  else history.

(** ** callLLMWithRetry *)

(** What a run of the retry loop did: what it returned or threw
    ([inl None] is [throw undefined]), how many times it called the API,
    and the delays it waited, in milliseconds. *)
Record retryRun (E A : Type) := RetryRun {
  run_outcome : option E + A;
  run_calls : nat;
  run_delays : list Q
}.
Arguments RetryRun {E A}.
Arguments run_outcome {E A}.
Arguments run_calls {E A}.
Arguments run_delays {E A}.

(** [Math.min(1000 * Math.pow(2, retries), 10000) + Math.random() * 1000] *)
Definition backoffDelay (retries : Z) (random : Q) : Q :=
  (inject_Z (Z.min (1000 * 2 ^ retries) 10000) + random * 1000)%Q.

(** The [while (retries <= maxRetries)] loop. [apiCall k] is the outcome
    of the call number [k], [random k] the value of [Math.random()] after
    it; [fuel] bounds the number of iterations. *)
Fixpoint retryLoop {E A} (apiCall : nat → E + A) (random : nat → Q) (maxRetries : Z)
    (fuel : nat) (retries : Z) (lastError : option E) (calls : nat)
    (delays : list Q) : retryRun E A :=
  match fuel with
  | O => {| run_outcome := inl lastError; run_calls := calls; run_delays := delays |}
  | S fuel' =>
      if decide (retries <= maxRetries) then
        match apiCall calls with
        | inr response =>
            {| run_outcome := inr response; run_calls := S calls; run_delays := delays |}
        | inl error =>
            let retries' := retries + 1 in
            retryLoop apiCall random maxRetries fuel' retries' (Some error) (S calls)
              (if decide (retries' <= maxRetries)
               then delays ++ [backoffDelay retries' (random calls)]
               else delays)
        end
      else {| run_outcome := inl lastError; run_calls := calls; run_delays := delays |}
  end.

Definition default_max_retries : Z := 3.

(** [callLLMWithRetry(apiCall, maxRetries = 3)]: the loop runs at most
    [maxRetries + 1] times. *)
Definition callLLMWithRetry {E A} (apiCall : nat → E + A) (random : nat → Q)
    (maxRetries : option Z) : retryRun E A :=
  let maxRetries := default default_max_retries maxRetries in
  retryLoop apiCall random maxRetries (Z.to_nat (maxRetries + 1)) 0 None 0 [].

(** ** handleVideoFeedback *)

(** [array.slice(-n)] *)
Definition sliceLast {A} (n : nat) (l : list A) : list A := drop (length l - n) l.

Definition feedbackMessage (feedbackType : string) : string :=
  if String.eqb feedbackType "like" then
    "Thanks for the like! I'll try to recommend more content like this in the future."
  else if String.eqb feedbackType "dislike" then
    "Thanks for letting me know this wasn't helpful. I'll try to improve my recommendations."
  else if String.eqb feedbackType "irrelevant" then
    "I appreciate you letting me know this wasn't relevant. This helps me improve my search results."
  else "Thanks for your feedback!".

Record feedbackResponse := FeedbackResponse {
  success : bool;
  message : string
}.

(** The response, the content after the call of the [preferredBrawlers]
    array that was passed in, and the [preferredBrawlers] given to
    [saveUserPreferences] when the preferences are saved. *)
Record feedbackRun := FeedbackRun {
  feedback_response : feedbackResponse;
  feedback_array : option (list string);
  feedback_saved : option (list string)
}.

(** [handleVideoFeedback(youtubeId, feedbackType, userPreferences)].
    [storeUp] tells whether the calls to the store succeed; when one
    fails the error is caught. The brawlers of a liked video are pushed
    on the array of the preferences, which the caller shares; the cut to
    the last ten makes a new array. *)
Definition handleVideoFeedback (db : list video) (storeUp : bool)
    (youtubeId feedbackType : string) (preferredBrawlers : option (list string))
  : feedbackRun :=
  if storeUp then
    let response :=
      {| success := true; message := feedbackMessage feedbackType |} in
    match getVideoByYoutubeId db youtubeId with
    | Some video =>
        if bool_decide (0 < length (brawlers video))%nat
           && String.eqb feedbackType "like"
        then
          let pushed := foldl pushIfAbsent (default [] preferredBrawlers) (brawlers video) in
          {| feedback_response := response;
             feedback_array := match preferredBrawlers with
                               | Some _ => Some pushed
                               | None => None
                               end;
             feedback_saved :=
               Some (if decide (10 < length pushed)%nat
                     then sliceLast 10 pushed else pushed) |}
        else
          {| feedback_response := response;
             feedback_array := preferredBrawlers;
             feedback_saved := None |}
    | None =>
        {| feedback_response := response;
           feedback_array := preferredBrawlers;
           feedback_saved := None |}
    end
  else
    {| feedback_response :=
         {| success := false;
            message := "I couldn't process your feedback at the moment. Please try again later." |};
       feedback_array := preferredBrawlers;
       feedback_saved := None |}.

(** ** The preferences of the session, POST /api/conversation *)

(** One step of the [forEach]: push when absent, then [shift] when the
    array has grown over the cap. *)
Definition rememberOne (cap : nat) (prefs : list string) (x : string) : list string :=
  if decide (x ∈ prefs) then prefs
  else
    let pushed := prefs ++ [x] in
    if decide (cap < length pushed)%nat then drop 1 pushed else pushed.

(** [if (found && found.length > 0) found.forEach(...)] *)
Definition remember (cap : nat) (prefs : list string) (found : option (list string))
  : list string :=
  foldl (rememberOne cap) prefs (default [] found).

Record chatMessage := ChatMessage {
  role : string;
  content : string
}.

Module Session.
Record t := Make {
  preferredBrawlers : list string;
  preferredGameModes : list string;
  preferredContentTypes : list string;
  conversationHistory : list chatMessage
}.
End Session.

(** The update of [req.session.userPreferences] after a message:
    [brawlers], [gameModes] and [contentType] are the fields of
    [response.searchParams]. *)
Definition updateSession (s : Session.t) (userMessage responseMessage : string)
    (brawlers gameModes contentType : option (list string)) : Session.t :=
  {| Session.conversationHistory :=
       sliceLast 20 (Session.conversationHistory s
                     ++ [ {| role := "user"; content := userMessage |};
                          {| role := "assistant"; content := responseMessage |} ]);
     Session.preferredBrawlers := remember 10 (Session.preferredBrawlers s) brawlers;
     Session.preferredGameModes := remember 5 (Session.preferredGameModes s) gameModes;
     Session.preferredContentTypes :=
       remember 5 (Session.preferredContentTypes s) contentType |}.

(** ** getPersonalizedRecommendations *)

Module Preferences.
(** [userPreferences]; a field is [None] when the object does not have it. *)
Record t := Make {
  preferredBrawlers : option (list string);
  preferredGameModes : option (list string);
  preferredContentTypes : option (list string)
}.
End Preferences.

Record personalized := Personalized {
  rec_videos : list video;
  rec_explanation : string;
  rec_trendingBrawlers : list Trending.t;
  rec_popularQueries : option popularResult
}.

(** The object returned when a call to the store fails; its
    [popularQueries] is an empty array. *)
Definition noRecommendations : personalized :=
  {| rec_videos := [];
     rec_explanation := "I couldn't generate personalized recommendations at the moment. Please try searching for specific content instead.";
     rec_trendingBrawlers := [];
     rec_popularQueries := None |}.

(** [targetBrawlers] *)
Definition targetBrawlers (prefs : Preferences.t) (trending : list Trending.t)
  : list string :=
  let userBrawlers := default [] (Preferences.preferredBrawlers prefs) in
  if decide (0 < length userBrawlers)%nat
  then take 3 userBrawlers
  else take 3 (Trending.brawler <$> trending).

(** [searchParams]; the parameters it does not give have their defaults. *)
Definition personalizedParams (prefs : Preferences.t) (trending : list Trending.t)
    (limit : Z) : Params.t :=
  {| Params.query := "";
     Params.brawlers := targetBrawlers prefs trending;
     Params.gameModes := take 2 (default [] (Preferences.preferredGameModes prefs));
     Params.contentType :=
       default ["gameplay"; "tutorial"] (Preferences.preferredContentTypes prefs);
     Params.skillLevel := "";
     Params.sortBy := "trending";
     Params.limit := limit;
     Params.page := 1;
     Params.minViews := 0;
     Params.maxDuration := 0;
     Params.dateFrom := "";
     Params.dateTo := "";
     Params.channelId := "" |}.

Definition explain (prefs : Preferences.t) (targets : list string) : string :=
  let userGameModes := default [] (Preferences.preferredGameModes prefs) in
  let e := "Here are some Brawl Stars videos you might enjoy" in
  let e := if decide (0 < length targets)%nat
           then e +:+ " featuring " +:+ String.concat " and " targets else e in
  let e := if decide (0 < length userGameModes)%nat
           then e +:+ " in " +:+ String.concat " and " userGameModes else e in
  let e := e +:+ "." in
  match Preferences.preferredBrawlers prefs with
  | Some (b :: bs) =>
      e +:+ " These recommendations are based on your interest in "
        +:+ String.concat ", " (take 3 (b :: bs)) +:+ "."
  | _ => e
  end.

Definition default_personalized_limit : Z := 6.

(** [getPersonalizedRecommendations(userPreferences = {}, limit = 6)];
    [trendingStart] and [queriesStart] are the starts of the windows of
    the two aggregations. *)
Definition getPersonalizedRecommendations (idx : textIndex) (db : list video)
    (history : list searchRow) (trendingStart queriesStart : string)
    (prefs : Preferences.t) (limit : option Z) : personalized :=
  match getTrendingBrawlers db (Some 5) trendingStart with
  | inl _ => noRecommendations
  | inr trending =>
      match getPopularSearchQueries history 5 queriesStart 1 with
      | inl _ => noRecommendations
      | inr popular =>
          let targets := targetBrawlers prefs trending in
          match searchVideos idx db
                  (personalizedParams prefs trending
                     (default default_personalized_limit limit)) with
          | inl _ => noRecommendations
          | inr found =>
              {| rec_videos := videos found;
                 rec_explanation := explain prefs targets;
                 rec_trendingBrawlers := trending;
                 rec_popularQueries := Some popular |}
          end
      end
  end.

(** ** connectToDatabase *)

(** What an attempt to connect does: [client.connect()] throws, or
    [initializeCollections()] or [createIndexes()] throws after the
    connection is made, or the attempt completes. *)
Inductive attempt :=
  | ConnectFails (message : string)
  | SetupFails (message : string)
  | Ready.

Module Connection.
(** The variables [client], [db] and [connected] of the module, each
    by its truth value. *)
Record t := Make {
  client : bool;
  db : bool;
  connected : bool
}.
End Connection.

(** The variables after an attempt: [client] is assigned before
    [client.connect()] is awaited, [db] and [connected] after it, before
    the collections and the indexes are set up. *)
Definition afterAttempt (st : Connection.t) (o : attempt) : Connection.t :=
  match o with
  | ConnectFails _ =>
      {| Connection.client := true;
         Connection.db := Connection.db st;
         Connection.connected := Connection.connected st |}
  | SetupFails _ | Ready =>
      {| Connection.client := true;
         Connection.db := true;
         Connection.connected := true |}
  end.

(** What [connectToDatabase] throws: its own error, with the number of
    retries and the message of the last error, or the [TypeError] of
    [lastError.message] when [lastError] is undefined. *)
Inductive connectError :=
  | FailedToConnect (retries : Z) (lastMessage : string)
  | TypeError.

Record connectRun := ConnectRun {
  conn_outcome : connectError + ();
  conn_state : Connection.t;
  conn_attempts : nat;
  conn_delays : list Q
}.

(** The statement after the loop. *)
Definition giveUp (retries : Z) (lastError : option string) (st : Connection.t)
    (tried : nat) (delays : list Q) : connectRun :=
  {| conn_outcome :=
       inl match lastError with
           | Some message => FailedToConnect retries message
           | None => TypeError
           end;
     conn_state := st; conn_attempts := tried; conn_delays := delays |}.

(** The loop [for (let attempt = 1; attempt <= retries; attempt++)].
    [outcomes k] is what the attempt number [k + 1] does; [fuel] bounds
    the number of iterations. *)
Fixpoint connectLoop (outcomes : nat → attempt) (retries : Z) (fuel : nat)
    (attemptNo : Z) (delay : Q) (lastError : option string) (st : Connection.t)
    (tried : nat) (delays : list Q) : connectRun :=
  match fuel with
  | O => giveUp retries lastError st tried delays
  | S fuel' =>
      if decide (attemptNo <= retries) then
        let st' := afterAttempt st (outcomes tried) in
        match outcomes tried with
        | Ready =>
            {| conn_outcome := inr (); conn_state := st';
               conn_attempts := S tried; conn_delays := delays |}
        | ConnectFails message | SetupFails message =>
            if decide (attemptNo < retries) then
              connectLoop outcomes retries fuel' (attemptNo + 1) (delay * (3 # 2))%Q
                (Some message) st' (S tried) (delays ++ [delay])
            else
              connectLoop outcomes retries fuel' (attemptNo + 1) delay
                (Some message) st' (S tried) delays
        end
      else giveUp retries lastError st tried delays
  end.

Definition default_connect_retries : Z := 5.
Definition default_connect_delay : Q := 5000.

(** [connectToDatabase(retries = 5, delay = 5000)]; the delays are exact
    rationals. The loop runs at most [retries] times. *)
Definition connectToDatabase (st : Connection.t) (outcomes : nat → attempt)
    (retries : option Z) (delay : option Q) : connectRun :=
  let retries := default default_connect_retries retries in
  let delay := default default_connect_delay delay in
  if Connection.connected st && Connection.client st && Connection.db st then
    {| conn_outcome := inr (); conn_state := st; conn_attempts := 0; conn_delays := [] |}
  else
    connectLoop outcomes retries (Z.to_nat retries) 1 delay None st 0 [].

(** [ensureConnection()] *)
Definition ensureConnection (st : Connection.t) (outcomes : nat → attempt) : connectRun :=
  if negb (Connection.connected st) || negb (Connection.client st)
     || negb (Connection.db st)
  then connectToDatabase st outcomes None None
  else {| conn_outcome := inr (); conn_state := st; conn_attempts := 0;
          conn_delays := [] |}.

(** ** POST /api/feedback *)

(** The handler passes [{ ...req.session.userPreferences, userId }]: a
    new object that shares the arrays of the session. What
    [handleVideoFeedback] pushes on [preferredBrawlers] is therefore
    pushed on the array of the session, while the cut to the last ten is
    assigned to the copy. [None] is the answer 400. *)
Definition postFeedback (s : Session.t) (db : list video) (storeUp : bool)
    (youtubeId feedbackType : string) : option (Session.t * feedbackResponse) :=
  if negb (truthy youtubeId) || negb (truthy feedbackType) then None
  else
    let run := handleVideoFeedback db storeUp youtubeId feedbackType
                 (Some (Session.preferredBrawlers s)) in
    Some ({| Session.preferredBrawlers :=
               default (Session.preferredBrawlers s) (feedback_array run);
             Session.preferredGameModes := Session.preferredGameModes s;
             Session.preferredContentTypes := Session.preferredContentTypes s;
             Session.conversationHistory := Session.conversationHistory s |},
          feedback_response run).

(** ** formatDuration, formatTimestamp *)

(** [s.padStart(2, '0')] *)
Definition padStart2 (s : string) : string :=
  match String.length s with
  | O => "00"
  | S O => "0" +:+ s
  | _ => s
  end.

(** [formatDuration(durationInSeconds)] on a whole number of seconds:
    [Math.floor(d / 60)] is the floored quotient, [d % 60] keeps the
    sign of [d], and [toString()] writes an integer in decimal. *)
Definition formatDuration (durationInSeconds : Z) : string :=
  let minutes := durationInSeconds / 60 in
  let seconds := Z.rem durationInSeconds 60 in
  if decide (minutes < 60) then
    pretty minutes +:+ ":" +:+ padStart2 (pretty seconds)
  else
    let hours := minutes / 60 in
    let remainingMinutes := Z.rem minutes 60 in
    pretty hours +:+ ":" +:+ padStart2 (pretty remainingMinutes)
      +:+ ":" +:+ padStart2 (pretty seconds).

(** [formatTimestamp(timestampInSeconds)] has the same body. *)
Definition formatTimestamp (timestampInSeconds : Z) : string :=
  let minutes := timestampInSeconds / 60 in
  let seconds := Z.rem timestampInSeconds 60 in
  if decide (minutes < 60) then
    pretty minutes +:+ ":" +:+ padStart2 (pretty seconds)
  else
    let hours := minutes / 60 in
    let remainingMinutes := Z.rem minutes 60 in
    pretty hours +:+ ":" +:+ padStart2 (pretty remainingMinutes)
      +:+ ":" +:+ padStart2 (pretty seconds).

(** ** Vocabulary of the further properties *)

(** The document meets every constraint that the request gives. *)
Definition satisfies (idx : textIndex) (p : Params.t) (v : video) : Prop :=
  (hasText (Params.query p) = true → textMatches idx (Params.query p) v = true)
  ∧ (Params.brawlers p = [] ∨ intersects (brawlers v) (Params.brawlers p))
  ∧ (Params.gameModes p = [] ∨ intersects (gameModes v) (Params.gameModes p))
  ∧ (Params.contentType p = [] ∨ intersects (contentType v) (Params.contentType p))
  ∧ (Params.skillLevel p ≠ "" → skillLevel v = Params.skillLevel p)
  ∧ (Params.channelId p ≠ "" → creator_id (video_creator v) = Params.channelId p)
  ∧ (0 < Params.minViews p → Params.minViews p <= viewCount v)
  ∧ (0 < Params.maxDuration p → duration v <= Params.maxDuration p)
  ∧ (Params.dateFrom p ≠ "" → String.leb (Params.dateFrom p) (publishedAt v) = true)
  ∧ (Params.dateTo p ≠ "" → String.leb (publishedAt v) (Params.dateTo p) = true).

#[global] Instance satisfies_dec idx p v : Decision (satisfies idx p v).
Proof. unfold satisfies, intersects. apply _. Defined.

(** The same request for another page. *)
Definition atPage (p : Params.t) (page : Z) : Params.t :=
  {| Params.query := Params.query p;
     Params.brawlers := Params.brawlers p;
     Params.gameModes := Params.gameModes p;
     Params.contentType := Params.contentType p;
     Params.skillLevel := Params.skillLevel p;
     Params.sortBy := Params.sortBy p;
     Params.limit := Params.limit p;
     Params.page := page;
     Params.minViews := Params.minViews p;
     Params.maxDuration := Params.maxDuration p;
     Params.dateFrom := Params.dateFrom p;
     Params.dateTo := Params.dateTo p;
     Params.channelId := Params.channelId p |}.

(** Strictly ascending order of strings. *)
Definition ascending (a b : string) : Prop := String.ltb a b = true.

(** The number of elements of the arrays that [field] reads, over the
    documents. *)
Definition mentions (field : video → list string) (docs : list video) : Z :=
  Z.of_nat (sum_list_with (λ v, length (field v)) docs).

(** The sum of [f] over a list. *)
Definition sumOf {A} (f : A → Z) (l : list A) : Z := foldr (λ x t, f x + t) 0 l.

(** The documents of a creator, in the order of the store. *)
Definition videosOf (creatorId : string) (db : list video) : list video :=
  filter (λ v, creator_id (video_creator v) = creatorId) db.

(** [$sort: { totalViews: -1 }] on the projected entries. *)
Definition byCreatorViews (a b : Creator.t) : Prop :=
  Creator.totalViews b <= Creator.totalViews a.

(** The delays after the failed calls [from], ..., [from + count - 1]:
    the call number [k] is followed by the delay of [retries = k + 1]. *)
Definition waits (random : nat → Q) (from count : nat) : list Q :=
  (λ k, backoffDelay (Z.of_nat k + 1) (random k)) <$> seq from count.

(** The number of calls that [maxRetries] allows. *)
Definition attempts (maxRetries : Z) : nat := Z.to_nat (maxRetries + 1).

(** What the update of a list of preferences under a cap keeps: [after]
    is the list [before] once the items [found] have been remembered. *)
Definition remembered (cap : nat) (before found after : list string) : Prop :=
  ((length before ≤ cap)%nat → (length after ≤ cap)%nat)
  ∧ ((cap ≤ length before)%nat → length after = length before)
  ∧ (NoDup before → NoDup after)
  ∧ (∀ x, x ∈ after → x ∈ before ∨ x ∈ found)
  ∧ ((0 < cap)%nat → ∀ x, last found = Some x → x ∈ after).

(** The delays of [count] failed attempts to connect that are followed
    by another attempt: each is one and a half times the one before. *)
Fixpoint growingWaits (delay : Q) (count : nat) : list Q :=
  match count with
  | O => []
  | S count' => delay :: growingWaits (delay * (3 # 2))%Q count'
  end.

(** The sum of a list of rationals. *)
Definition sumQ (l : list Q) : Q := foldr Qplus 0%Q l.

(** The three variables of the connection are set. *)
Definition established (st : Connection.t) : Prop :=
  Connection.connected st = true ∧ Connection.client st = true
  ∧ Connection.db st = true.

(** The message of a failed attempt. *)
Definition failureOf (o : attempt) : option string :=
  match o with
  | ConnectFails message | SetupFails message => Some message
  | Ready => None
  end.

(** The string has no colon. *)
Fixpoint colonFree (s : string) : bool :=
  match s with
  | EmptyString => true
  | String c s' => negb (Ascii.eqb c ":") && colonFree s'
  end.

(** * Properties *)

(** ** Set operators *)

Lemma size_setIntersection (a b : list string) :
  size_of (setIntersection a b) = common a b.
Proof.
  unfold size_of, setIntersection, common. f_equal.
  rewrite <- (size_list_to_set (C := gset string)) by apply NoDup_remove_dups.
  f_equal. apply set_eq. intros x.
  rewrite elem_of_list_to_set, elem_of_remove_dups, list_elem_of_filter.
  set_solver.
Qed.

Lemma inAny_spec (field values : list string) :
  inAny field values = true ↔
  (list_to_set field : gset string) ∩ list_to_set values ≠ ∅.
Proof.
  unfold inAny. rewrite existsb_exists. split.
  - intros (x & Hx & Hv). apply bool_decide_eq_true in Hv.
    apply list_elem_of_In in Hx. set_solver.
  - intros Hne. apply set_choose_L in Hne as (x & Hx).
    exists x. rewrite bool_decide_eq_true, <- list_elem_of_In. set_solver.
Qed.

(** ** Pipeline stages *)

Lemma stage_limit_positive {A} (n : Z) (docs : list A) :
  0 < n → stage_limit n docs = inr (take (Z.to_nat n) docs).
Proof. intros Hn. unfold stage_limit. by rewrite decide_True. Qed.

Lemma stage_limit_inr {A} (n : Z) (docs out : list A) :
  stage_limit n docs = inr out → 0 < n ∧ out = take (Z.to_nat n) docs.
Proof. unfold stage_limit. case_decide; naive_solver. Qed.

Lemma Sorted_take {A} (R : relation A) (n : nat) (l : list A) :
  Sorted R l → Sorted R (take n l).
Proof.
  intros Hl. revert n. induction Hl as [|x l Hl IH Hhd]; intros [|n]; simpl;
    try constructor; auto.
  destruct Hhd, n; simpl; constructor; auto.
Qed.

Lemma Sorted_drop {A} (R : relation A) (n : nat) (l : list A) :
  Sorted R l → Sorted R (drop n l).
Proof.
  intros Hl. revert n. induction Hl as [|x l Hl IH Hhd]; intros [|n]; simpl;
    try constructor; auto.
Qed.

(** ** The ranking order of the recommendations *)

Lemma ranked_spec (a b : scored) : ranked a b ↔ rankedSpec a b.
Proof.
  unfold ranked, rankedBefore, rankedSpec.
  destruct (finalScore b ?= finalScore a)%Q eqn:Hc.
  - apply Qeq_alt in Hc. split; [intros H; right; split; [by symmetry | done]|].
    intros [Hlt | [_ H]]; [|done]. rewrite Hc in Hlt. by apply Qlt_irrefl in Hlt.
  - apply Qlt_alt in Hc. split; auto.
  - apply Qgt_alt in Hc. split; [done|].
    intros [Hlt | [Heq _]].
    + exfalso. eapply Qlt_irrefl, Qlt_trans; eauto.
    + rewrite Heq in Hc. by apply Qlt_irrefl in Hc.
Qed.

#[global] Instance ranked_total : Total ranked.
Proof.
  intros a b. unfold ranked, rankedBefore.
  rewrite <- (Qcompare_antisym (finalScore a) (finalScore b)).
  destruct (finalScore a ?= finalScore b)%Q; simpl; auto.
  destruct (String.leb_total (publishedAt (doc a)) (publishedAt (doc b))); auto.
Qed.

Lemma Sorted_impl {A} (R1 R2 : relation A) (l : list A) :
  (∀ x y, R1 x y → R2 x y) → Sorted R1 l → Sorted R2 l.
Proof.
  intros HR. induction 1 as [|x l Hl IH Hhd]; constructor; auto.
  destruct Hhd; constructor; auto.
Qed.

(** ** getVideoRecommendations *)

Lemma getVideoByYoutubeId_Some (db : list video) (id : string) (v : video) :
  getVideoByYoutubeId db id = Some v → v ∈ db ∧ youtubeId v = id.
Proof.
  unfold getVideoByYoutubeId. intros H. apply find_some in H as [Hin Hid].
  apply bool_decide_eq_true in Hid. by rewrite list_elem_of_In.
Qed.

Lemma getVideoByYoutubeId_exists (db : list video) (id : string) :
  is_Some (getVideoByYoutubeId db id) ↔ ∃ v, v ∈ db ∧ youtubeId v = id.
Proof.
  split.
  - intros [v Hv]. exists v. by apply getVideoByYoutubeId_Some.
  - intros (v & Hin & Hid). unfold getVideoByYoutubeId.
    destruct (find _ db) eqn:Hf; [by eexists|].
    apply list_elem_of_In in Hin.
    apply (find_none _ _ Hf) in Hin. apply bool_decide_eq_false in Hin. done.
Qed.

(** What a successful call returns: the scored candidates, ranked, cut
    to the limit. *)
Lemma getVideoRecommendations_found (db : list video) (id : string)
    (limit : option Z) (prefs : option (list string)) (sourceVideo : video) :
  getVideoByYoutubeId db id = Some sourceVideo →
  0 < default default_recommendation_limit limit →
  getVideoRecommendations db id limit prefs =
    inr (take (Z.to_nat (default default_recommendation_limit limit))
           (merge_sort ranked (addScores sourceVideo prefs <$> candidates db id))).
Proof.
  intros Hsrc Hlim. unfold getVideoRecommendations. rewrite Hsrc.
  by apply stage_limit_positive.
Qed.

Lemma getVideoRecommendations_inr (db : list video) (id : string)
    (limit : option Z) (prefs : option (list string)) (rs : list scored) :
  getVideoRecommendations db id limit prefs = inr rs →
  ∃ sourceVideo,
    getVideoByYoutubeId db id = Some sourceVideo
    ∧ 0 < default default_recommendation_limit limit
    ∧ rs = take (Z.to_nat (default default_recommendation_limit limit))
             (merge_sort ranked (addScores sourceVideo prefs <$> candidates db id)).
Proof.
  unfold getVideoRecommendations. destruct (getVideoByYoutubeId db id) as [src|]; [|done].
  intros H. apply stage_limit_inr in H. naive_solver.
Qed.

Lemma recommended_elem (db : list video) (id : string)
    (limit : option Z) (prefs : option (list string)) (rs : list scored) (r : scored) :
  getVideoRecommendations db id limit prefs = inr rs → r ∈ rs →
  ∃ sourceVideo,
    getVideoByYoutubeId db id = Some sourceVideo
    ∧ r = addScores sourceVideo prefs (doc r)
    ∧ doc r ∈ db ∧ youtubeId (doc r) ≠ id.
Proof.
  intros H Hr. apply getVideoRecommendations_inr in H as (src & Hsrc & _ & ->).
  exists src. split; [done|].
  apply subseteq_take in Hr.
  rewrite merge_sort_Permutation in Hr.
  apply list_elem_of_fmap in Hr as (v & -> & Hv).
  apply list_elem_of_filter in Hv as [Hne Hv]. done.
Qed.

Lemma String_leb_spec (a b : string) :
  String.leb a b = true ↔ a = b ∨ String_as_OT.lt a b.
Proof.
  unfold String.leb. destruct (String.compare a b) eqn:Hc.
  - apply String_as_OT.cmp_eq in Hc. naive_solver.
  - apply String_as_OT.cmp_lt in Hc. naive_solver.
  - split; [done|]. intros [-> | Hlt].
    + pose proof (proj2 (String_as_OT.cmp_eq b b) eq_refl) as Hr.
      unfold String_as_OT.cmp in Hr. congruence.
    + apply String_as_OT.cmp_lt in Hlt. unfold String_as_OT.cmp in Hlt. congruence.
Qed.

Lemma String_leb_trans (a b c : string) :
  String.leb a b = true → String.leb b c = true → String.leb a c = true.
Proof.
  rewrite !String_leb_spec. intros [-> | Hab] [-> | Hbc]; auto.
  right. eapply String_as_OT.lt_trans; eauto.
Qed.

#[global] Instance rankedSpec_trans : Transitive rankedSpec.
Proof.
  intros a b c [Hab | [Hab Hab']] [Hbc | [Hbc Hbc']].
  - left. eapply Qlt_trans; eauto.
  - left. by rewrite <- Hbc.
  - left. by rewrite Hab.
  - right. split; [by rewrite Hab|]. eapply String_leb_trans; eauto.
Qed.

(** The ranked candidates before the cut, with the properties of the
    [$sort] stage. *)
Lemma ranking_sorted (sourceVideo : video) (prefs : option (list string))
    (cands : list video) :
  let all := merge_sort ranked (addScores sourceVideo prefs <$> cands) in
  all ≡ₚ addScores sourceVideo prefs <$> cands ∧ StronglySorted rankedSpec all.
Proof.
  split; [apply merge_sort_Permutation|].
  apply Sorted_StronglySorted; [apply _|].
  eapply Sorted_impl; [|apply Sorted_merge_sort; apply _].
  intros x y. apply ranked_spec.
Qed.

Lemma StronglySorted_take {A} (R : relation A) (n : nat) (l : list A) :
  StronglySorted R l → StronglySorted R (take n l).
Proof.
  intros Hl. rewrite <- (take_drop n l) in Hl.
  by apply StronglySorted_app in Hl as (_ & Hl & _).
Qed.

(** ** C1: the similarity score *)

(** C1. The similarity score of a candidate is 3 per brawler, 2 per game
    mode and 1 per content type it has in common with the source, plus 4
    when it has the creator of the source, plus 1 per brawler it has in
    common with a non-empty set of preferred brawlers; every returned
    recommendation carries that score; a candidate that agrees with the
    source on brawlers [Mortis], game modes [Brawl Ball], content types
    [tutorial] and on the creator scores 10. *)
Theorem similarity_score_weights :
  (∀ (sourceVideo candidate : video) (prefs : option (list string)),
     similarityScore (addScores sourceVideo prefs candidate) =
       3 * common (brawlers candidate) (brawlers sourceVideo)
       + 2 * common (gameModes candidate) (gameModes sourceVideo)
       + 1 * common (contentType candidate) (contentType sourceVideo)
       + (if decide (creator_id (video_creator candidate)
                     = creator_id (video_creator sourceVideo)) then 4 else 0)
       + match prefs with
         | Some (b :: bs) => 1 * common (brawlers candidate) (b :: bs)
         | _ => 0
         end)
  ∧ (∀ (db : list video) (id : string) (limit : option Z)
       (prefs : option (list string)) (rs : list scored) (r : scored),
       getVideoRecommendations db id limit prefs = inr rs → r ∈ rs →
       ∃ sourceVideo,
         getVideoByYoutubeId db id = Some sourceVideo
         ∧ r = addScores sourceVideo prefs (doc r))
  ∧ (∀ sourceVideo candidate : video,
       brawlers sourceVideo = ["Mortis"] → brawlers candidate = ["Mortis"] →
       gameModes sourceVideo = ["Brawl Ball"] → gameModes candidate = ["Brawl Ball"] →
       contentType sourceVideo = ["tutorial"] → contentType candidate = ["tutorial"] →
       creator_id (video_creator candidate) = creator_id (video_creator sourceVideo) →
       similarityScore (addScores sourceVideo None candidate) = 3 + 2 + 1 + 4).
Proof.
  split; [|split].
  - intros src c prefs. simpl. unfold similarityOf, boostOf, baseSimilarity.
    rewrite !size_setIntersection.
    destruct prefs as [[|b bs]|]; simpl; rewrite ?size_setIntersection; lia.
  - intros db id limit prefs rs r H Hr.
    destruct (recommended_elem _ _ _ _ _ _ H Hr) as (src & ? & ? & _). eauto.
  - intros src c Hb Hb' Hg Hg' Ht Ht' Hc. simpl.
    unfold similarityOf, boostOf, baseSimilarity. simpl.
    rewrite Hb, Hb', Hg, Hg', Ht, Ht', Hc. rewrite decide_True by done.
    reflexivity.
Qed.

Lemma similarity_score_weights_witness :
  similarityScore (addScores mortisVideo None mortisSequel) = 3 + 2 + 1 + 4.
Proof.
  apply (proj2 (proj2 similarity_score_weights) mortisVideo mortisSequel);
    reflexivity.
Defined.

Example similarity_with_preferences :
  similarityScore (addScores mortisVideo (Some ["Colt"; "Shelly"]) mortisColtVideo) = 11.
Proof. vm_compute. reflexivity. Qed.

(** ** C2: final score, ranking and cut *)



Example recommendations_for_mortis :
  mapResult (fmap doc) (getVideoRecommendations sampleDb "vid-mortis" None None)
  = inr [mortisColtVideo; shellyVideo].
Proof. vm_compute. reflexivity. Qed.

Example recommendations_limit_one :
  mapResult (fmap doc) (getVideoRecommendations sampleDb "vid-mortis" (Some 1) None)
  = inr [mortisColtVideo].
Proof. vm_compute. reflexivity. Qed.

(** ** C10: the source video *)

(** C10. When a video with the given id is in the store, no returned
    recommendation has that id, and the call does not fail with the
    not-found error (it returns a list whenever the limit is positive);
    when no video has the id, the call fails with the not-found error
    and returns no list. *)
Theorem recommendations_source_handling (db : list video) (id : string)
    (limit : option Z) (prefs : option (list string)) :
  (Exists (λ v, youtubeId v = id) db →
     (∀ rs, getVideoRecommendations db id limit prefs = inr rs →
            Forall (λ r, youtubeId (doc r) ≠ id ∧ doc r ∈ db) rs)
     ∧ (0 < default 6 limit →
        ∃ rs, getVideoRecommendations db id limit prefs = inr rs)
     ∧ getVideoRecommendations db id limit prefs ≠ inl (VideoNotFound id))
  ∧ (Forall (λ v, youtubeId v ≠ id) db →
     getVideoRecommendations db id limit prefs = inl (VideoNotFound id)).
Proof.
  split.
  - intros Hex. apply Exists_exists in Hex.
    apply getVideoByYoutubeId_exists in Hex as [src Hsrc].
    split; [|split].
    + intros rs H. apply Forall_forall. intros r Hr.
      destruct (recommended_elem _ _ _ _ _ _ H Hr) as (_ & _ & _ & ? & ?). done.
    + intros Hlim. eexists. by apply getVideoRecommendations_found.
    + unfold getVideoRecommendations, stage_limit. rewrite Hsrc.
      case_decide; done.
  - intros Hall. unfold getVideoRecommendations.
    destruct (getVideoByYoutubeId db id) as [src|] eqn:Hsrc; [|done].
    apply getVideoByYoutubeId_Some in Hsrc as [Hin Hid].
    rewrite Forall_forall in Hall. by apply Hall in Hin.
Qed.

Lemma recommendations_source_handling_witness :
  (∃ rs, getVideoRecommendations sampleDb "vid-shelly" None None = inr rs
         ∧ Forall (λ r, youtubeId (doc r) ≠ "vid-shelly" ∧ doc r ∈ sampleDb) rs)
  ∧ getVideoRecommendations sampleDb "vid-unknown" None None
    = inl (VideoNotFound "vid-unknown").
Proof.
  split.
  - destruct (recommendations_source_handling sampleDb "vid-shelly" None None)
      as [Hfound _].
    destruct Hfound as (Hnot & Hret & _).
    + unfold sampleDb. do 2 apply Exists_cons_tl. apply Exists_cons_hd. reflexivity.
    + destruct Hret as [rs Hrs]; [simpl; lia|]. exists rs. split; [done|]. by apply Hnot.
  - apply (recommendations_source_handling sampleDb "vid-unknown" None None).
    unfold sampleDb. repeat constructor; discriminate.
Defined.

Example recommendations_single_video :
  getVideoRecommendations [mortisVideo] "vid-mortis" None None = inr [].
Proof. vm_compute. reflexivity. Qed.

(** ** The order of a sort specification *)

Lemma fieldCompare_antisym (field : string) (a b : video) :
  fieldCompare field a b = CompOpp (fieldCompare field b a).
Proof.
  unfold fieldCompare. repeat case_match; try done.
  - by rewrite <- Qcompare_antisym.
  - by rewrite <- Qcompare_antisym.
  - apply Z.compare_antisym.
  - apply String.compare_antisym.
Qed.

Lemma keyCompare_antisym idx query key (a b : video) :
  keyCompare idx query key a b = CompOpp (keyCompare idx query key b a).
Proof.
  unfold keyCompare. destruct key.2.
  - apply fieldCompare_antisym.
  - by rewrite <- Qcompare_antisym.
Qed.

Lemma sortCompare_antisym idx query spec (a b : video) :
  sortCompare idx query spec a b = CompOpp (sortCompare idx query spec b a).
Proof.
  induction spec as [|key spec IH]; simpl; [done|].
  rewrite (keyCompare_antisym idx query key a b).
  destruct (keyCompare idx query key b a); simpl; auto.
Qed.

#[global] Instance sortedBefore_total idx query spec : Total (sortedBefore idx query spec).
Proof.
  intros a b. unfold sortedBefore. rewrite (sortCompare_antisym idx query spec a b).
  destruct (sortCompare idx query spec b a); simpl; auto.
Qed.

Lemma cursorSort_Permutation idx query spec (docs : list video) :
  cursorSort idx query spec docs ≡ₚ docs.
Proof. destruct spec; [done|]. apply merge_sort_Permutation. Qed.

Lemma cursorSort_Sorted idx query spec (docs : list video) :
  spec ≠ [] → Sorted (sortedBefore idx query spec) (cursorSort idx query spec docs).
Proof. destruct spec; [done|]. intros _. apply Sorted_merge_sort. apply _. Qed.

Lemma selected_Permutation idx db p :
  selected idx db p ≡ₚ filter (λ v, matches idx (buildQuery p) v = true) db.
Proof. apply cursorSort_Permutation. Qed.

Lemma selected_Sorted idx db p (R : relation video) :
  sortOptions p ≠ [] →
  (∀ a b, sortedBefore idx (Params.query p) (sortOptions p) a b → R a b) →
  Sorted R (selected idx db p).
Proof.
  intros Hne HR. eapply Sorted_impl; [exact HR|]. by apply cursorSort_Sorted.
Qed.

Lemma String_leb_compare (a b : string) :
  String.leb a b = true ↔ String.compare a b ≠ Gt.
Proof. unfold String.leb. destruct (String.compare a b); naive_solver. Qed.

(** ** C3: selection of the sort order *)

Lemma hasText_trimmed (query : string) :
  trim query = query → (hasText query = true ↔ query ≠ "").
Proof.
  intros Htrim. unfold hasText, truthy. rewrite Htrim.
  destruct (String.eqb_spec query ""); simpl; naive_solver.
Qed.

Lemma sortOptions_other (p : Params.t) :
  Params.sortBy p ∉ ["relevance"; "recent"; "popular"; "trending"] →
  sortOptions p = [("popularity", Descending)].
Proof.
  intros Hn. rewrite !not_elem_of_cons in Hn. destruct Hn as (H1 & H2 & H3 & H4 & _).
  unfold sortOptions. cbv zeta.
  destruct (String.eqb_spec (Params.sortBy p) "relevance"); [done|].
  destruct (String.eqb_spec (Params.sortBy p) "recent"); [done|].
  destruct (String.eqb_spec (Params.sortBy p) "popular"); [done|].
  destruct (String.eqb_spec (Params.sortBy p) "trending"); [done|].
  reflexivity.
Qed.

Lemma sorted_byPopularity idx db p :
  sortOptions p = [("popularity", Descending)] →
  Sorted byPopularity (selected idx db p).
Proof.
  intros Ho. apply selected_Sorted; rewrite Ho; [done|].
  intros a b. unfold sortedBefore, byPopularity. simpl.
  unfold keyCompare, fieldCompare. simpl. rewrite Qle_alt.
  by destruct (popularity b ?= popularity a)%Q.
Qed.

(** C3, amended. The sort specification depends on [sortBy], and for
    [relevance] on the query text: [relevance] sorts by descending text
    score when the query has text other than white space (for a trimmed
    query: when it is not empty) and by descending popularity score
    otherwise; [recent] sorts by descending publish timestamp; [popular]
    by descending view count; [trending] by descending recency score,
    then descending popularity score; every other value of [sortBy] sorts
    by descending popularity score. The selected documents come in that
    order. *)
Theorem sort_selection (idx : textIndex) (db : list video) (p : Params.t) :
  (Params.sortBy p = "relevance" → hasText (Params.query p) = true →
     sortOptions p = [("score", MetaTextScore)]
     ∧ Sorted (byTextScore idx (Params.query p)) (selected idx db p))
  ∧ (Params.sortBy p = "relevance" → hasText (Params.query p) = false →
     sortOptions p = [("popularity", Descending)]
     ∧ Sorted byPopularity (selected idx db p))
  ∧ (Params.sortBy p = "recent" →
     sortOptions p = [("publishedAt", Descending)]
     ∧ Sorted byPublishedAt (selected idx db p))
  ∧ (Params.sortBy p = "popular" →
     sortOptions p = [("viewCount", Descending)]
     ∧ Sorted byViewCount (selected idx db p))
  ∧ (Params.sortBy p = "trending" →
     sortOptions p = [("recency", Descending); ("popularity", Descending)]
     ∧ Sorted byRecencyThenPopularity (selected idx db p))
  ∧ (Params.sortBy p ∉ ["relevance"; "recent"; "popular"; "trending"] →
     sortOptions p = [("popularity", Descending)]
     ∧ Sorted byPopularity (selected idx db p))
  ∧ (trim (Params.query p) = Params.query p →
     (hasText (Params.query p) = true ↔ Params.query p ≠ "")).
Proof.
  split; [|split; [|split; [|split; [|split; [|split]]]]].
  - intros Hs Ht.
    assert (sortOptions p = [("score", MetaTextScore)]) as Ho
      by (unfold sortOptions; by rewrite Hs, Ht).
    split; [done|]. apply selected_Sorted; rewrite Ho; [done|].
    intros a b. unfold sortedBefore, byTextScore. simpl.
    unfold keyCompare. simpl. rewrite Qle_alt.
    by destruct (textScore idx (Params.query p) b ?= textScore idx (Params.query p) a)%Q.
  - intros Hs Ht.
    assert (sortOptions p = [("popularity", Descending)]) as Ho
      by (unfold sortOptions; by rewrite Hs, Ht).
    split; [done|]. by apply sorted_byPopularity.
  - intros Hs.
    assert (sortOptions p = [("publishedAt", Descending)]) as Ho
      by (unfold sortOptions; by rewrite Hs).
    split; [done|]. apply selected_Sorted; rewrite Ho; [done|].
    intros a b. unfold sortedBefore, byPublishedAt. simpl.
    unfold keyCompare, fieldCompare. simpl. rewrite String_leb_compare.
    by destruct (String.compare (publishedAt b) (publishedAt a)).
  - intros Hs.
    assert (sortOptions p = [("viewCount", Descending)]) as Ho
      by (unfold sortOptions; by rewrite Hs).
    split; [done|]. apply selected_Sorted; rewrite Ho; [done|].
    intros a b. unfold sortedBefore, byViewCount. simpl.
    unfold keyCompare, fieldCompare. simpl.
    unfold Z.le. by destruct (viewCount b ?= viewCount a).
  - intros Hs.
    assert (sortOptions p = [("recency", Descending); ("popularity", Descending)]) as Ho
      by (unfold sortOptions; by rewrite Hs).
    split; [done|]. apply selected_Sorted; rewrite Ho; [done|].
    intros a b. unfold sortedBefore, byRecencyThenPopularity. simpl.
    unfold keyCompare, fieldCompare. simpl.
    destruct (recency b ?= recency a)%Q eqn:Hr.
    + apply Qeq_alt in Hr. intros Hp. right. split; [by symmetry|].
      apply Qle_alt. by destruct (popularity b ?= popularity a)%Q.
    + apply Qlt_alt in Hr. auto.
    + done.
  - intros Hn. pose proof (sortOptions_other p Hn) as Ho.
    split; [done|]. by apply sorted_byPopularity.
  - apply hasText_trimmed.
Qed.

Lemma sort_selection_witness :
  sortOptions (request [] "banana") = [("popularity", Descending)]
  ∧ Sorted byPopularity (selected sampleIndex sampleDb (request [] "banana")).
Proof.
  apply (sort_selection sampleIndex sampleDb (request [] "banana")).
  simpl. rewrite !not_elem_of_cons. repeat split; try discriminate.
  apply not_elem_of_nil.
Defined.

(** C3 as stated fails: the unrecognized [sortBy] value [banana] is not
    treated as [popular]. It sorts by the popularity score, [popular] by
    the view count, and the two orders differ on the sample store. *)
Lemma unrecognized_sortBy_is_not_popular :
  sortOptions (request [] "banana") ≠ sortOptions (request [] "popular")
  ∧ sortOptions (request [] "banana") = [("popularity", Descending)]
  ∧ sortOptions (request [] "popular") = [("viewCount", Descending)]
  ∧ mapResult videos (searchVideos sampleIndex sampleDb (request [] "banana"))
    = inr [mortisVideo; mortisColtVideo; shellyVideo]
  ∧ mapResult videos (searchVideos sampleIndex sampleDb (request [] "popular"))
    = inr [shellyVideo; mortisVideo; mortisColtVideo].
Proof.
  split; [discriminate|]. split; [reflexivity|]. split; [reflexivity|].
  split; vm_compute; reflexivity.
Qed.

(** ** C6 and C7: the predicate *)

Lemma holds_when_set (filter field : list string) :
  holds (when (bool_decide (0 < length filter)%nat) filter) (inAny field) = true ↔
  filter = [] ∨ (list_to_set field : gset string) ∩ list_to_set filter ≠ ∅.
Proof.
  destruct filter as [|x filter]; [naive_solver|].
  rewrite bool_decide_true by (simpl; lia). unfold when, holds.
  rewrite inAny_spec. naive_solver.
Qed.

(** C6. A request with an empty query, empty brawler, game mode and
    content type sets, an empty skill level, no creator, no dates,
    [minViews = 0] and [maxDuration = 0] builds the empty query object,
    which selects every document. *)
Theorem empty_filter_matches_all (idx : textIndex) (p : Params.t) (v : video) :
  Params.query p = "" →
  Params.brawlers p = [] → Params.gameModes p = [] → Params.contentType p = [] →
  Params.skillLevel p = "" → Params.channelId p = "" →
  Params.minViews p = 0 → Params.maxDuration p = 0 →
  Params.dateFrom p = "" → Params.dateTo p = "" →
  buildQuery p = Query.empty ∧ matches idx (buildQuery p) v = true.
Proof.
  intros Hq Hb Hg Hc Hs Hch Hmin Hmax Hfrom Hto.
  assert (buildQuery p = Query.empty) as ->; [|done].
  unfold buildQuery. rewrite Hq, Hb, Hg, Hc, Hs, Hch, Hmin, Hmax, Hfrom, Hto.
  reflexivity.
Qed.

Lemma empty_filter_matches_all_witness :
  buildQuery (request [] "recent") = Query.empty
  ∧ matches sampleIndex (buildQuery (request [] "recent")) shellyVideo = true.
Proof.
  apply (empty_filter_matches_all sampleIndex (request [] "recent") shellyVideo);
    reflexivity.
Defined.

(** C7. A document satisfies the query built from a request exactly when
    it satisfies the query built from the request without its set filters
    and, for each of the brawler, game mode and content type filters,
    the filter is empty or has an element in common with the array of
    the document. A document with brawlers [Shelly] is selected by the
    brawler filter [Shelly, Colt] and not by the brawler filter [Mortis]. *)
Theorem set_filters_intersect :
  (∀ (idx : textIndex) (p : Params.t) (v : video),
     matches idx (buildQuery p) v = true ↔
       matches idx (buildQuery (withoutSets p)) v = true
       ∧ (Params.brawlers p = [] ∨ intersects (brawlers v) (Params.brawlers p))
       ∧ (Params.gameModes p = [] ∨ intersects (gameModes v) (Params.gameModes p))
       ∧ (Params.contentType p = []
          ∨ intersects (contentType v) (Params.contentType p)))
  ∧ (∀ (idx : textIndex) (v : video) (sortBy : string),
       brawlers v = ["Shelly"] →
       matches idx (buildQuery (request ["Shelly"; "Colt"] sortBy)) v = true
       ∧ matches idx (buildQuery (request ["Mortis"] sortBy)) v = false).
Proof.
  split.
  - intros idx p v. unfold matches, intersects. simpl.
    rewrite !andb_true_iff, !holds_when_set. tauto.
  - intros idx v sortBy Hv. unfold matches. simpl. rewrite Hv. done.
Qed.

Lemma set_filters_intersect_witness :
  matches sampleIndex (buildQuery (request ["Shelly"; "Colt"] "popular")) shellyVideo = true
  ∧ matches sampleIndex (buildQuery (request ["Mortis"] "popular")) shellyVideo = false.
Proof.
  apply (proj2 set_filters_intersect sampleIndex shellyVideo "popular").
  reflexivity.
Defined.

(** The scenario of the specification: the filter [Mortis] sorted by
    [popular] keeps the two Mortis videos, larger view count first. *)
Example search_mortis_popular :
  mapResult videos (searchVideos sampleIndex sampleDb (request ["Mortis"] "popular"))
  = inr [mortisVideo; mortisColtVideo].
Proof. vm_compute. reflexivity. Qed.

(** ** C4: pagination *)

Lemma ceilDiv_positive (total limit : Z) :
  0 < limit →
  ∃ c, ceilDiv total limit = Num c ∧ (c - 1) * limit < total ∧ total <= c * limit.
Proof.
  intros Hl. unfold ceilDiv. rewrite decide_False by lia. eexists. split; [done|].
  pose proof (Z.div_mod (- total) limit ltac:(lia)) as Hdm.
  pose proof (Z.mod_pos_bound (- total) limit Hl) as Hm.
  nia.
Qed.

Lemma cursorSkipLimit_valid (skip limit : Z) (docs : list video) :
  0 <= skip → 0 < limit →
  cursorSkipLimit skip limit docs
  = inr (take (Z.to_nat limit) (drop (Z.to_nat skip) docs)).
Proof.
  intros Hs Hl. unfold cursorSkipLimit.
  rewrite decide_False by lia. rewrite decide_False by lia.
  by rewrite Z.abs_eq by lia.
Qed.

Lemma length_selected idx db p :
  length (selected idx db p)
  = length (filter (λ v, matches idx (buildQuery p) v = true) db).
Proof. by rewrite selected_Permutation. Qed.



Example page_four_of_twenty_five :
  searchVideos sampleIndex manyVideos (pageRequest 4 10)
  = inr {| videos := [];
           search_pagination :=
             {| total := 25; page := 4; limit := 10; pages := Num 3 |} |}.
Proof. vm_compute. reflexivity. Qed.

Example nothing_matches :
  searchVideos sampleIndex sampleDb (request ["Spike"] "popular")
  = inr {| videos := [];
           search_pagination :=
             {| total := 0; page := 1; limit := 20; pages := Num 0 |} |}.
Proof. vm_compute. reflexivity. Qed.

(** ** C5: a page or a page size that is not positive *)




(** ** C9: monotonicity of the trending score *)

Lemma ln_10_pos : (0 < ln 10)%R.
Proof. rewrite <- ln_1. apply ln_increasing; lra. Qed.

Lemma log10_le (x y : R) : (0 < x)%R → (x <= y)%R → (log10 x <= log10 y)%R.
Proof.
  intros Hx [Hlt | ->]; [|apply Rle_refl].
  unfold log10. apply Rmult_le_compat_r.
  - left. apply Rinv_0_lt_compat, ln_10_pos.
  - left. by apply ln_increasing.
Qed.

(** C9. With the occurrence count fixed, more total views never lower the
    trending score; with the total views fixed, a larger occurrence count
    gives a strictly larger trending score. View counts are not negative. *)
Theorem trending_score_monotone :
  (∀ count views views' : Z,
     0 <= views → views <= views' →
     (trendingScore count views <= trendingScore count views')%R)
  ∧ (∀ views count count' : Z,
       count < count' →
       (trendingScore count views < trendingScore count' views)%R).
Proof.
  split.
  - intros c v v' H0 Hle. unfold trendingScore.
    assert (log10 (IZR v + 1) <= log10 (IZR v' + 1))%R as Hlog.
    { apply log10_le.
      - apply IZR_le in H0. lra.
      - apply IZR_le in Hle. lra. }
    lra.
  - intros v c c' Hlt. unfold trendingScore. apply IZR_lt in Hlt. lra.
Qed.

Lemma trending_score_monotone_witness :
  (trendingScore 3 100 <= trendingScore 3 1000)%R
  ∧ (trendingScore 3 100 < trendingScore 4 100)%R.
Proof.
  split.
  - apply (proj1 trending_score_monotone 3 100 1000); lia.
  - apply (proj2 trending_score_monotone 100 3 4); lia.
Defined.

(** ** The [$group] stage *)

Lemma groupOf_accumulate {S} (k k' : string) (new : S) (step : S → S)
    (groups : list (string * S)) :
  groupOf k' (accumulate k new step groups)
  = if decide (k' = k) then Some (from_option step new (groupOf k groups))
    else groupOf k' groups.
Proof.
  induction groups as [|[k0 s] groups IH]; simpl.
  - by repeat case_decide.
  - destruct (decide (k = k0)) as [->|Hne]; simpl.
    + by repeat case_decide.
    + rewrite IH. repeat case_decide; congruence.
Qed.

Lemma accumulate_keys {S} (k : string) (new : S) (step : S → S)
    (groups : list (string * S)) :
  (accumulate k new step groups).*1
  = if decide (k ∈ groups.*1) then groups.*1 else groups.*1 ++ [k].
Proof.
  induction groups as [|[k0 s] groups IH].
  - destruct (decide (k ∈ ([] : list (string * S)).*1)) as [Hin|_]; [|done].
    by apply not_elem_of_nil in Hin.
  - cbn [accumulate]. destruct (decide (k = k0)) as [->|Hne].
    + rewrite decide_True; [done|]. rewrite fmap_cons. apply list_elem_of_here.
    + rewrite !fmap_cons, IH. cbn [fst].
      destruct (decide (k ∈ groups.*1)) as [Hin|Hnin].
      * rewrite decide_True; [done|]. by apply list_elem_of_further.
      * rewrite decide_False; [done|]. rewrite not_elem_of_cons. done.
Qed.

Lemma NoDup_accumulate {S} (k : string) (new : S) (step : S → S)
    (groups : list (string * S)) :
  NoDup groups.*1 → NoDup (accumulate k new step groups).*1.
Proof.
  intros Hnd. rewrite accumulate_keys. case_decide; [done|].
  apply NoDup_app. split; [done|]. split; [|apply NoDup_singleton].
  intros x Hx Hk. apply list_elem_of_singleton in Hk. by subst.
Qed.

Lemma elem_of_groupOf {S} (k : string) (s : S) (groups : list (string * S)) :
  NoDup groups.*1 → (k, s) ∈ groups ↔ groupOf k groups = Some s.
Proof.
  induction groups as [|[k0 s0] groups IH]; simpl; intros Hnd.
  - split; [|done]. intros H. by apply not_elem_of_nil in H.
  - apply NoDup_cons in Hnd as [Hk0 Hnd]. rewrite elem_of_cons, IH by done.
    destruct (decide (k = k0)) as [->|Hne].
    + split; [|naive_solver]. intros [[= ->]|Hin]; [done|].
      exfalso. apply Hk0. apply IH in Hin; [|done].
      apply list_elem_of_fmap. by exists (k0, s).
    + naive_solver.
Qed.

Section groupBy.
Context {A S : Type} (key : A → string) (new : A → S) (step : A → S → S).

Local Abbreviation add :=
  (λ (groups : list (string * S)) (r : A),
     accumulate (key r) (new r) (step r) groups).

Lemma groupOf_foldl (k : string) (rows : list A) (groups : list (string * S)) :
  groupOf k (foldl add groups rows)
  = foldl (advance key new step k) (groupOf k groups) rows.
Proof.
  revert groups. induction rows as [|r rows IH]; intros groups; simpl; [done|].
  rewrite IH, groupOf_accumulate. f_equal. unfold advance.
  case_decide; by subst.
Qed.

Lemma NoDup_foldl (rows : list A) (groups : list (string * S)) :
  NoDup groups.*1 → NoDup (foldl add groups rows).*1.
Proof.
  revert groups. induction rows as [|r rows IH]; intros groups Hnd; simpl; [done|].
  apply IH. by apply NoDup_accumulate.
Qed.

Lemma NoDup_groupBy (rows : list A) : NoDup (groupBy key new step rows).*1.
Proof. apply NoDup_foldl. constructor. Qed.

Lemma elem_of_groupBy (k : string) (s : S) (rows : list A) :
  (k, s) ∈ groupBy key new step rows
  ↔ foldl (advance key new step k) None rows = Some s.
Proof.
  rewrite elem_of_groupOf by apply NoDup_groupBy.
  unfold groupBy. by rewrite groupOf_foldl.
Qed.
End groupBy.

(** ** C8: the trending aggregations *)

Lemma advance_brawlers (b : string) (rows : list (string * video))
    (o : option (Z * Z)) :
  foldl (advance fst (λ r, (1, viewCount r.2))
                 (λ r s, (s.1 + 1, s.2 + viewCount r.2)) b) o rows
  = match filter (λ r, r.1 = b) rows with
    | [] => o
    | occ => Some ((default (0, 0) o).1 + Z.of_nat (length occ),
                   (default (0, 0) o).2 + viewsOf occ)
    end.
Proof.
  revert o. induction rows as [|r rows IH]; intros o; [done|].
  cbn [foldl]. rewrite IH. unfold advance.
  destruct (decide (b = r.1)) as [Hb|Hb].
  - rewrite (filter_cons_True (λ r, r.1 = b)) by done.
    destruct (filter (λ r, r.1 = b) rows) as [|r' occ]; destruct o as [[c t]|];
      simpl; f_equal; f_equal; lia.
  - by rewrite (filter_cons_False (λ r, r.1 = b)) by done.
Qed.

Lemma elem_of_groupBrawlers (b : string) (c t : Z) (rows : list (string * video)) :
  (b, (c, t)) ∈ groupBrawlers rows
  ↔ filter (λ r, r.1 = b) rows ≠ []
    ∧ c = Z.of_nat (length (filter (λ r, r.1 = b) rows))
    ∧ t = viewsOf (filter (λ r, r.1 = b) rows).
Proof.
  unfold groupBrawlers. rewrite elem_of_groupBy, advance_brawlers.
  destruct (filter (λ r, r.1 = b) rows) as [|r occ].
  - naive_solver.
  - unfold default, from_option, id. cbn [fst snd]. rewrite !Z.add_0_l. naive_solver.
Qed.

Lemma advance_queries (q : string) (rows : list searchRow) (o : option Z) :
  foldl (advance row_query (λ _, 1) (λ _ c, c + 1) q) o rows
  = match filter (λ r, row_query r = q) rows with
    | [] => o
    | occ => Some (default 0 o + Z.of_nat (length occ))
    end.
Proof.
  revert o. induction rows as [|r rows IH]; intros o; [done|].
  cbn [foldl]. rewrite IH. unfold advance.
  destruct (decide (q = row_query r)) as [Hq|Hq].
  - rewrite (filter_cons_True (λ r, row_query r = q)) by done.
    destruct (filter (λ r, row_query r = q) rows) as [|r' occ]; destruct o as [c|];
      simpl; f_equal; lia.
  - by rewrite (filter_cons_False (λ r, row_query r = q)) by done.
Qed.

Lemma elem_of_groupQueries (q : string) (c : Z) (rows : list searchRow) :
  (q, c) ∈ groupQueries rows
  ↔ filter (λ r, row_query r = q) rows ≠ []
    ∧ c = Z.of_nat (length (filter (λ r, row_query r = q) rows)).
Proof.
  unfold groupQueries. rewrite elem_of_groupBy, advance_queries.
  destruct (filter (λ r, row_query r = q) rows) as [|r occ].
  - naive_solver.
  - unfold default, from_option, id. rewrite Z.add_0_l. naive_solver.
Qed.

#[global] Instance byScore_total : Total byScore.
Proof.
  intros a b. unfold byScore.
  destruct (Rle_or_lt (Trending.score a) (Trending.score b)); [by right|left].
  by apply Rlt_le.
Qed.

#[global] Instance byScore_trans : Transitive byScore.
Proof. intros a b c Hab Hbc. unfold byScore in *. eapply Rle_trans; eauto. Qed.

#[global] Instance byCount_total : Total byCount.
Proof. intros a b. unfold byCount. lia. Qed.

#[global] Instance byCount_trans : Transitive byCount.
Proof. intros a b c. unfold byCount. lia. Qed.

#[global] Instance byQueryCount_trans : Transitive byQueryCount.
Proof. intros a b c. unfold byQueryCount. lia. Qed.

Lemma elem_of_trendingEntries (e : Trending.t) (db : list video) (startDate : string) :
  e ∈ trendingEntries db startDate
  ↔ mentionsOf (Trending.brawler e) db startDate ≠ []
    ∧ Trending.count e = Z.of_nat (length (mentionsOf (Trending.brawler e) db startDate))
    ∧ Trending.totalViews e = viewsOf (mentionsOf (Trending.brawler e) db startDate)
    ∧ Trending.score e = trendingScore (Trending.count e) (Trending.totalViews e).
Proof.
  unfold trendingEntries, mentionsOf. rewrite list_elem_of_fmap. split.
  - intros ([b [c t]] & -> & Hg). apply elem_of_groupBrawlers in Hg. naive_solver.
  - intros (Hne & Hc & Ht & Hs). destruct e as [b c t s]. simpl in *.
    exists (b, (c, t)). split.
    + unfold addTrendingScore. simpl. by rewrite Hs.
    + apply elem_of_groupBrawlers. naive_solver.
Qed.

Lemma mentionsOf_nonempty (b : string) (db : list video) (startDate : string) :
  mentionsOf b db startDate ≠ []
  ↔ ∃ v, v ∈ db ∧ inWindow startDate v ∧ b ∈ brawlers v.
Proof.
  unfold mentionsOf, unwindBrawlers. split.
  - intros Hne.
    destruct (filter _ _) as [|[b' v] occ] eqn:Hocc; [done|].
    assert ((b', v) ∈ (b', v) :: occ) as Hin by apply list_elem_of_here.
    rewrite <- Hocc in Hin. apply list_elem_of_filter in Hin as [Hb Hin].
    apply list_elem_of_bind in Hin as (v' & Hin & Hv').
    apply list_elem_of_fmap in Hin as (b'' & [= -> ->] & Hb'').
    apply list_elem_of_filter in Hv' as [Hw Hv']. simpl in Hb. subst. eauto.
  - intros (v & Hv & Hw & Hb) Hnil.
    assert ((b, v) ∈ filter (λ r : string * video, r.1 = b)
              (filter (inWindow startDate) db ≫= λ v, (λ b, (b, v)) <$> brawlers v))
      as Hin.
    { apply list_elem_of_filter. split; [done|]. apply list_elem_of_bind.
      exists v. split; [|by apply list_elem_of_filter].
      apply list_elem_of_fmap. eauto. }
    rewrite Hnil in Hin. by apply not_elem_of_nil in Hin.
Qed.

Lemma StronglySorted_drop {A} (R : relation A) (n : nat) (l : list A) :
  StronglySorted R l → StronglySorted R (drop n l).
Proof.
  intros Hl. rewrite <- (take_drop n l) in Hl.
  by apply StronglySorted_app in Hl as (_ & _ & Hl).
Qed.

Lemma elem_of_popularEntries (e : Popular.t) (history : list searchRow)
    (startDate : string) :
  e ∈ projectQuery <$> popularEntries history startDate
  ↔ searchesOf (Popular.query e) history startDate ≠ []
    ∧ Popular.count e
      = Z.of_nat (length (searchesOf (Popular.query e) history startDate)).
Proof.
  unfold popularEntries, searchesOf. rewrite list_elem_of_fmap. split.
  - intros ([q c] & -> & Hg). rewrite merge_sort_Permutation in Hg.
    by apply elem_of_groupQueries in Hg.
  - intros (Hne & Hc). destruct e as [q c]. simpl in *.
    exists (q, c). split; [done|]. rewrite merge_sort_Permutation.
    by apply elem_of_groupQueries.
Qed.



Example popular_queries_first_page :
  getPopularSearchQueries sampleHistory 2 "2024-01-01T00:00:00.000Z" 1
  = inr {| queries := [ {| Popular.query := "mortis"; Popular.count := 3 |};
                        {| Popular.query := "shelly guide"; Popular.count := 2 |} ];
           popular_pagination :=
             {| total := 2; page := 1; limit := 2; pages := Num 1 |} |}.
Proof. vm_compute. reflexivity. Qed.

Example popular_queries_second_page :
  getPopularSearchQueries sampleHistory 1 "2024-01-01T00:00:00.000Z" 2
  = inr {| queries := [ {| Popular.query := "shelly guide"; Popular.count := 2 |} ];
           popular_pagination :=
             {| total := 2; page := 2; limit := 1; pages := Num 2 |} |}.
Proof. vm_compute. reflexivity. Qed.

Example trending_groups :
  groupBrawlers (unwindBrawlers sampleDb)
  = [("Mortis", (2, 700000)); ("Colt", (1, 200000)); ("Shelly", (1, 900000))].
Proof. vm_compute. reflexivity. Qed.

Example trending_limit_zero :
  getTrendingBrawlers sampleDb (Some 0) "2024-01-01T00:00:00.000Z"
  = inl (LimitNotPositive 0).
Proof. reflexivity. Qed.

(** ** The order of the trending scores, on integers *)

Lemma ln_le_iff (x y : R) : (0 < x)%R → (0 < y)%R → (ln x <= ln y)%R ↔ (x <= y)%R.
Proof.
  intros Hx Hy. split.
  - intros [Hlt | Heq]; [left; by apply ln_lt_inv | right; by apply ln_inv].
  - intros [Hlt | ->]; [left; by apply ln_increasing | apply Rle_refl].
Qed.

(** The trending score is the decimal logarithm of 10^count * (totalViews + 1)^2. *)
Lemma trendingScore_log10 (count totalViews : Z) :
  0 <= count → 0 <= totalViews →
  trendingScore count totalViews
  = log10 (IZR (10 ^ count * (totalViews + 1) ^ 2)).
Proof.
  intros Hc Hv. rewrite <- (Z2Nat.id count Hc). generalize (Z.to_nat count) as n.
  intros n. unfold trendingScore, log10.
  assert (0 < IZR totalViews + 1)%R as Hpos by (apply IZR_le in Hv; lra).
  replace ((totalViews + 1) ^ 2) with ((totalViews + 1) ^ Z.of_nat 2) by reflexivity.
  rewrite mult_IZR, <- !pow_IZR, plus_IZR.
  rewrite ln_mult by (apply pow_lt; lra).
  rewrite !ln_pow by lra.
  rewrite <- INR_IZR_INZ. simpl (INR 2).
  pose proof ln_10_pos. field. lra.
Qed.

Lemma trendingScore_le_iff (c1 v1 c2 v2 : Z) :
  0 <= c1 → 0 <= v1 → 0 <= c2 → 0 <= v2 →
  (trendingScore c1 v1 <= trendingScore c2 v2)%R
  ↔ 10 ^ c1 * (v1 + 1) ^ 2 <= 10 ^ c2 * (v2 + 1) ^ 2.
Proof.
  intros Hc1 Hv1 Hc2 Hv2. rewrite !trendingScore_log10 by done. unfold log10.
  assert (∀ c v, 0 <= c → 0 <= v → 0 < 10 ^ c * (v + 1) ^ 2) as Hpos.
  { intros c v Hc Hv. apply Z.mul_pos_pos; apply Z.pow_pos_nonneg; lia. }
  pose proof (IZR_lt _ _ (Hpos c1 v1 Hc1 Hv1)) as H1.
  pose proof (IZR_lt _ _ (Hpos c2 v2 Hc2 Hv2)) as H2.
  pose proof ln_10_pos as H10.
  split.
  - intros Hle. apply le_IZR, ln_le_iff; [done..|].
    apply (Rmult_le_reg_r (/ ln 10)); [by apply Rinv_0_lt_compat|done].
  - intros Hle. apply Rmult_le_compat_r; [left; by apply Rinv_0_lt_compat|].
    apply ln_le_iff; [done..|]. by apply IZR_le.
Qed.

(** The trending brawlers of the sample store: Mortis is mentioned twice,
    Shelly has more views than Colt. *)
Example trending_sample :
  getTrendingBrawlers sampleDb (Some 2) "2024-01-01T00:00:00.000Z"
  = inr [ {| Trending.brawler := "Mortis"; Trending.count := 2;
             Trending.totalViews := 700000;
             Trending.score := trendingScore 2 700000 |};
          {| Trending.brawler := "Shelly"; Trending.count := 1;
             Trending.totalViews := 900000;
             Trending.score := trendingScore 1 900000 |} ].
Proof.
  unfold getTrendingBrawlers, stage_limit. simpl default.
  rewrite decide_True by lia.
  replace (trendingEntries sampleDb "2024-01-01T00:00:00.000Z")
    with (addTrendingScore <$>
            [("Mortis", (2, 700000)); ("Colt", (1, 200000)); ("Shelly", (1, 900000))])
    by (unfold trendingEntries; f_equal; vm_compute; reflexivity).
  cbn [fmap list_fmap]. unfold addTrendingScore. cbn [fst snd].
  unfold merge_sort. cbn [merge_sort_aux merge_list_to_stack merge_stack list_merge].
  repeat match goal with
  | |- context [decide (byScore ?a ?b)] =>
      destruct (decide (byScore a b)) as [Hd|Hd];
      unfold byScore in Hd; cbn [Trending.score] in Hd;
      rewrite trendingScore_le_iff in Hd by lia;
      [try (exfalso; vm_compute in Hd; by apply Hd)
      |try (exfalso; apply Hd; vm_compute; discriminate)];
      clear Hd; cbn [merge_stack list_merge]
  end.
  reflexivity.
Qed.

(** * Properties of the further operations *)

(** ** Sorting by equivalent orders *)

Section merge_sort_ext.
Context {A : Type} (R1 R2 : relation A).
Context `{!RelDecision R1, !RelDecision R2}.
Hypothesis HR : ∀ a b, R1 a b ↔ R2 a b.

Lemma list_merge_ext (l1 l2 : list A) : list_merge R1 l1 l2 = list_merge R2 l1 l2.
Proof.
  revert l2. induction l1 as [|x1 l1 IH1]; intros l2;
    [by rewrite !list_merge_nil_l|].
  induction l2 as [|x2 l2 IH2]; [by rewrite !list_merge_nil_r|].
  rewrite !list_merge_cons.
  destruct (decide (R1 x1 x2)) as [H1|H1], (decide (R2 x1 x2)) as [H2|H2].
  - by rewrite IH1.
  - by apply HR in H1.
  - by apply HR in H2.
  - by rewrite IH2.
Qed.

Lemma merge_list_to_stack_ext (st : list (option (list A))) (l : list A) :
  merge_list_to_stack R1 st l = merge_list_to_stack R2 st l.
Proof.
  revert l. induction st as [|[l'|] st IH]; intros l; simpl; [done| |done].
  by rewrite list_merge_ext, IH.
Qed.

Lemma merge_stack_ext (st : list (option (list A))) :
  merge_stack R1 st = merge_stack R2 st.
Proof.
  induction st as [|[l'|] st IH]; simpl; [done| |done].
  by rewrite IH, list_merge_ext.
Qed.

Lemma merge_sort_ext (l : list A) : merge_sort R1 l = merge_sort R2 l.
Proof.
  unfold merge_sort. generalize (@nil (option (list A))) as st.
  induction l as [|x l IH]; intros st; simpl.
  - apply merge_stack_ext.
  - by rewrite merge_list_to_stack_ext, IH.
Qed.
End merge_sort_ext.

(** ** getVideosByBrawler, getVideosByGameMode *)

Lemma popularityFirst_spec (a b : video) : popularityFirst a b ↔ byPopularity a b.
Proof.
  unfold popularityFirst, byPopularity, fieldCompare. simpl. by rewrite Qle_alt.
Qed.

#[global] Instance popularityFirst_total : Total popularityFirst.
Proof.
  intros a b. unfold popularityFirst.
  rewrite (fieldCompare_antisym "popularity" b a).
  destruct (fieldCompare "popularity" a b); simpl; auto.
Qed.

#[global] Instance byPopularity_trans : Transitive byPopularity.
Proof. intros a b c Hab Hbc. unfold byPopularity in *. eapply Qle_trans; eauto. Qed.

Lemma cursorLimit_subseteq (limit : Z) (docs : list video) :
  cursorLimit limit docs ⊆ docs.
Proof. unfold cursorLimit. case_decide; [done|]. apply subseteq_take. Qed.

Lemma cursorLimit_StronglySorted (R : relation video) (limit : Z) (docs : list video) :
  StronglySorted R docs → StronglySorted R (cursorLimit limit docs).
Proof. unfold cursorLimit. case_decide; [done|]. apply StronglySorted_take. Qed.

Lemma cursorLimit_positive (limit : Z) (docs : list video) :
  0 < limit → cursorLimit limit docs = take (Z.to_nat limit) docs.
Proof.
  intros Hl. unfold cursorLimit. rewrite decide_False by lia.
  by rewrite Z.abs_eq by lia.
Qed.

Lemma sorted_by_popularity (docs : list video) :
  StronglySorted byPopularity (merge_sort popularityFirst docs).
Proof.
  apply Sorted_StronglySorted; [apply _|].
  eapply Sorted_impl; [|apply Sorted_merge_sort; apply _].
  intros a b. apply popularityFirst_spec.
Qed.



Example videos_of_mortis :
  getVideosByBrawler sampleDb "Mortis" None = [mortisVideo; mortisColtVideo].
Proof. vm_compute. reflexivity. Qed.

(** ** searchVideos: the listing of a brawler as a search *)

Lemma cursorSkipLimit_no_skip (limit : Z) (docs : list video) :
  cursorSkipLimit 0 limit docs = inr (cursorLimit limit docs).
Proof. unfold cursorSkipLimit, cursorLimit. by rewrite decide_False by lia. Qed.

Lemma sortOptions_popularity (p : Params.t) :
  hasText (Params.query p) = false →
  Params.sortBy p ∉ ["recent"; "popular"; "trending"] →
  sortOptions p = [("popularity", Descending)].
Proof.
  intros Ht Hn. destruct (decide (Params.sortBy p = "relevance")) as [Hr|Hr].
  - unfold sortOptions. by rewrite Hr, Ht.
  - apply sortOptions_other. rewrite not_elem_of_cons. done.
Qed.

Lemma inAny_singleton (field : list string) (x : string) :
  inAny field [x] = true ↔ x ∈ field.
Proof.
  unfold inAny. rewrite existsb_exists. split.
  - intros (y & Hy & Hx). apply bool_decide_eq_true, list_elem_of_singleton in Hx.
    subst. by apply list_elem_of_In.
  - intros Hx. exists x. rewrite <- list_elem_of_In, bool_decide_eq_true.
    split; [done|]. apply list_elem_of_here.
Qed.



(** ** searchVideos: every constraint of the request *)

Lemma holds_when {A} (b : bool) (x : A) (test : A → bool) :
  holds (when b x) test = true ↔ (b = true → test x = true).
Proof. destruct b; simpl; naive_solver. Qed.

Lemma truthy_true (s : string) : truthy s = true ↔ s ≠ "".
Proof. unfold truthy. destruct (String.eqb_spec s ""); simpl; naive_solver. Qed.

Lemma holds_dates (from to published : string) :
  holds (when (truthy from || truthy to)
              (when (truthy from) from, when (truthy to) to))
        (λ r, holds r.1 (λ from, String.leb from published)
              && holds r.2 (λ to, String.leb published to)) = true
  ↔ (from ≠ "" → String.leb from published = true)
    ∧ (to ≠ "" → String.leb published to = true).
Proof.
  rewrite <- !truthy_true.
  destruct (truthy from), (truthy to); simpl;
    rewrite ?andb_true_iff, ?andb_true_r; naive_solver.
Qed.

Lemma matches_satisfies (idx : textIndex) (p : Params.t) (v : video) :
  matches idx (buildQuery p) v = true ↔ satisfies idx p v.
Proof.
  unfold matches, satisfies, buildQuery, intersects. cbn [Query.text Query.brawlers
    Query.gameModes Query.contentType Query.skillLevel Query.creatorId
    Query.viewCount Query.duration Query.publishedAt].
  rewrite !andb_true_iff, holds_dates, !holds_when_set, !holds_when.
  rewrite !truthy_true, !bool_decide_eq_true, !String.eqb_eq, !Z.leb_le.
  naive_solver.
Qed.

Lemma searchVideos_inr (idx : textIndex) (db : list video) (p : Params.t)
    (r : searchResult) :
  searchVideos idx db p = inr r →
  videos r ⊆ selected idx db p
  ∧ total (search_pagination r) = Z.of_nat (length (selected idx db p)).
Proof.
  unfold searchVideos, cursorSkipLimit. case_decide; [done|].
  intros [= <-]. simpl. rewrite length_selected. split; [|done].
  case_decide.
  - apply subseteq_drop.
  - etrans; [apply subseteq_take|apply subseteq_drop].
Qed.



(** ** searchVideos: the pages together *)

Lemma searchVideos_page (idx : textIndex) (db : list video) (p : Params.t) :
  1 <= Params.page p → 1 <= Params.limit p →
  searchVideos idx db p
  = inr {| videos := take (Z.to_nat (Params.limit p))
                       (drop (Z.to_nat ((Params.page p - 1) * Params.limit p))
                             (selected idx db p));
           search_pagination :=
             {| total := Z.of_nat (length (selected idx db p));
                page := Params.page p;
                limit := Params.limit p;
                pages := ceilDiv (Z.of_nat (length (selected idx db p)))
                                 (Params.limit p) |} |}.
Proof.
  intros Hpage Hlimit. unfold searchVideos.
  rewrite cursorSkipLimit_valid by (unfold skipOf; nia).
  by rewrite <- length_selected.
Qed.

Lemma concat_chunks {A} (n c : nat) (l : list A) :
  concat ((λ k, take n (drop (k * n) l)) <$> seq 0 c) = take (c * n) l.
Proof.
  induction c as [|c IH]; [done|].
  rewrite seq_S, fmap_app, concat_app, IH. simpl.
  rewrite (right_id_L [] (++)), take_take_drop. f_equal. lia.
Qed.



(** ** The keys of the [$group] stage *)

Lemma groupBy_keys {A S} (key : A → string) (new : A → S) (step : A → S → S)
    (rows : list A) (k : string) :
  k ∈ (groupBy key new step rows).*1 ↔ k ∈ key <$> rows.
Proof.
  unfold groupBy.
  assert (∀ groups : list (string * S),
            k ∈ (foldl (λ groups r, accumulate (key r) (new r) (step r) groups)
                       groups rows).*1
            ↔ k ∈ groups.*1 ∨ k ∈ key <$> rows) as Hgen.
  { induction rows as [|r rows IH]; intros groups; simpl.
    - rewrite elem_of_nil. naive_solver.
    - rewrite IH, accumulate_keys, elem_of_cons.
      case_decide; rewrite ?elem_of_app, ?list_elem_of_singleton; naive_solver. }
  rewrite Hgen. simpl. rewrite elem_of_nil. naive_solver.
Qed.

Lemma StronglySorted_strict {A} (R : relation A) (l : list A) :
  StronglySorted R l → NoDup l → StronglySorted (λ a b, R a b ∧ a ≠ b) l.
Proof.
  induction 1 as [|x l Hl IH Hx]; intros Hnd; [constructor|].
  apply NoDup_cons in Hnd as [Hnin Hnd]. constructor; [by apply IH|].
  apply Forall_forall. intros y Hy. rewrite Forall_forall in Hx.
  split; [by apply Hx|]. by intros ->.
Qed.

Lemma StronglySorted_weaken {A} (R1 R2 : relation A) (l : list A) :
  (∀ a b, R1 a b → R2 a b) → StronglySorted R1 l → StronglySorted R2 l.
Proof.
  intros HR. induction 1 as [|x l Hl IH Hx]; constructor; [done|].
  eapply Forall_impl; eauto.
Qed.

(** ** getAllBrawlers, getAllGameModes *)

#[global] Instance ascendingId_total : Total ascendingId.
Proof. intros a b. unfold ascendingId. apply String.leb_total. Qed.

Lemma leb_ne_ltb (a b : string) : String.leb a b = true → a ≠ b → ascending a b.
Proof.
  unfold ascending, String.leb, String.ltb.
  destruct (String.compare a b) eqn:Hc; try done.
  apply String.compare_eq_iff in Hc. done.
Qed.

Lemma elem_of_unwindBrawlers (b : string) (v : video) (docs : list video) :
  (b, v) ∈ unwindBrawlers docs ↔ v ∈ docs ∧ b ∈ brawlers v.
Proof.
  unfold unwindBrawlers. rewrite list_elem_of_bind. split.
  - intros (v' & Hb & Hv). apply list_elem_of_fmap in Hb as (b' & [= -> ->] & Hb).
    done.
  - intros [Hv Hb]. exists v. split; [|done]. apply list_elem_of_fmap. eauto.
Qed.

Lemma elem_of_unwindGameModes (m : string) (v : video) (docs : list video) :
  (m, v) ∈ unwindGameModes docs ↔ v ∈ docs ∧ m ∈ gameModes v.
Proof.
  unfold unwindGameModes. rewrite list_elem_of_bind. split.
  - intros (v' & Hm & Hv). apply list_elem_of_fmap in Hm as (m' & [= -> ->] & Hm).
    done.
  - intros [Hv Hm]. exists v. split; [|done]. apply list_elem_of_fmap. eauto.
Qed.

Lemma sorted_ids (rows : list (string * video)) :
  let ids := (merge_sort ascendingId (groupIds rows)).*1 in
  StronglySorted ascending ids
  ∧ NoDup ids
  ∧ ∀ x, x ∈ ids ↔ x ∈ rows.*1.
Proof.
  intros ids.
  assert (ids ≡ₚ (groupIds rows).*1) as Hperm
    by (unfold ids; by rewrite merge_sort_Permutation).
  assert (NoDup ids) as Hnd
    by (rewrite Hperm; apply NoDup_groupBy).
  split; [|split; [done|]].
  - eapply (StronglySorted_weaken (λ a b, String.leb a b = true ∧ a ≠ b)).
    { intros a b [Hle Hne]. by apply leb_ne_ltb. }
    apply StronglySorted_strict; [|done].
    apply Sorted_StronglySorted.
    { intros a b c. apply String_leb_trans. }
    unfold ids. apply (Sorted_fmap _ ascendingId); [done|].
    apply Sorted_merge_sort. apply _.
  - intros x. rewrite Hperm. apply groupBy_keys.
Qed.

Lemma elem_of_getAllBrawlers (db : list video) (b : string) :
  b ∈ getAllBrawlers db ↔ ∃ v, v ∈ db ∧ b ∈ brawlers v.
Proof.
  destruct (sorted_ids (unwindBrawlers db)) as (_ & _ & Hin).
  unfold getAllBrawlers. rewrite Hin, list_elem_of_fmap. split.
  - intros ([b' v] & -> & Hv). apply elem_of_unwindBrawlers in Hv. naive_solver.
  - intros (v & Hv & Hb). exists (b, v). split; [done|].
    by apply elem_of_unwindBrawlers.
Qed.

Lemma elem_of_getAllGameModes (db : list video) (m : string) :
  m ∈ getAllGameModes db ↔ ∃ v, v ∈ db ∧ m ∈ gameModes v.
Proof.
  destruct (sorted_ids (unwindGameModes db)) as (_ & _ & Hin).
  unfold getAllGameModes. rewrite Hin, list_elem_of_fmap. split.
  - intros ([m' v] & -> & Hv). apply elem_of_unwindGameModes in Hv. naive_solver.
  - intros (v & Hv & Hm). exists (m, v). split; [done|].
    by apply elem_of_unwindGameModes.
Qed.

(** X5. The list of all brawlers (of all game modes) is in strictly
    ascending order, so that no name comes twice, and holds exactly the
    names that some document of the store has in its array. *)
Theorem all_brawlers_and_modes_sorted_distinct (db : list video) :
  (StronglySorted ascending (getAllBrawlers db)
   ∧ NoDup (getAllBrawlers db)
   ∧ ∀ b, b ∈ getAllBrawlers db ↔ ∃ v, v ∈ db ∧ b ∈ brawlers v)
  ∧ (StronglySorted ascending (getAllGameModes db)
     ∧ NoDup (getAllGameModes db)
     ∧ ∀ m, m ∈ getAllGameModes db ↔ ∃ v, v ∈ db ∧ m ∈ gameModes v).
Proof.
  split.
  - destruct (sorted_ids (unwindBrawlers db)) as (Hs & Hnd & _).
    split; [done|]. split; [done|]. apply elem_of_getAllBrawlers.
  - destruct (sorted_ids (unwindGameModes db)) as (Hs & Hnd & _).
    split; [done|]. split; [done|]. apply elem_of_getAllGameModes.
Qed.

Example all_brawlers_of_sample :
  getAllBrawlers sampleDb = ["Colt"; "Mortis"; "Shelly"]
  ∧ getAllGameModes sampleDb = ["Brawl Ball"; "Gem Grab"].
Proof. split; vm_compute; reflexivity. Qed.

Lemma all_brawlers_and_modes_sorted_distinct_witness :
  StronglySorted ascending (getAllBrawlers sampleDb)
  ∧ NoDup (getAllGameModes sampleDb).
Proof.
  destruct (all_brawlers_and_modes_sorted_distinct sampleDb)
    as [(Hs & _) (_ & Hnd & _)].
  done.
Defined.

(** ** getDatabaseStats *)

Lemma foldl_pushIfAbsent (set values : list string) :
  let pushed := foldl pushIfAbsent set values in
  (NoDup set → NoDup pushed) ∧ ∀ x, x ∈ pushed ↔ x ∈ set ∨ x ∈ values.
Proof.
  revert set. induction values as [|y values IH]; intros set; simpl.
  - split; [done|]. intros x. rewrite elem_of_nil. naive_solver.
  - destruct (IH (pushIfAbsent set y)) as [Hnd Hin]. split.
    + intros Hset. apply Hnd. unfold pushIfAbsent. case_decide; [done|].
      apply NoDup_app. split; [done|]. split; [|apply NoDup_singleton].
      intros x Hx Hy. apply list_elem_of_singleton in Hy. by subst.
    + intros x. rewrite Hin, elem_of_cons. unfold pushIfAbsent.
      case_decide; rewrite ?elem_of_app, ?list_elem_of_singleton; naive_solver.
Qed.

Lemma foldl_count_and_set (c : Z) (set values : list string) :
  foldl (λ s y, (s.1 + 1, pushIfAbsent s.2 y)) (c, set) values
  = (c + Z.of_nat (length values), foldl pushIfAbsent set values).
Proof.
  revert c set. induction values as [|y values IH]; intros c set; simpl.
  - f_equal. lia.
  - rewrite IH. f_equal. lia.
Qed.

Lemma groupAll_stats (values : list string) :
  let stats := default {| stats_count := 0; stats_unique := 0 |} (head (groupAll values)) in
  stats_count stats = Z.of_nat (length values)
  ∧ ∃ distinct : list string,
      stats_unique stats = Z.of_nat (length distinct)
      ∧ NoDup distinct ∧ ∀ x, x ∈ distinct ↔ x ∈ values.
Proof.
  destruct values as [|x rest]; simpl.
  - split; [done|]. exists []. split; [done|]. split; [constructor|done].
  - rewrite foldl_count_and_set. simpl. split; [lia|].
    destruct (foldl_pushIfAbsent [x] rest) as [Hnd Hin].
    eexists. split; [done|]. split; [apply Hnd, NoDup_singleton|].
    intros y. rewrite Hin. set_solver.
Qed.

Lemma length_unwindBrawlers (docs : list video) :
  Z.of_nat (length (unwindBrawlers docs)) = mentions brawlers docs.
Proof.
  unfold mentions, unwindBrawlers. f_equal.
  induction docs as [|v docs IH]; [done|].
  rewrite bind_cons, length_app, length_fmap, IH. done.
Qed.

Lemma length_unwindGameModes (docs : list video) :
  Z.of_nat (length (unwindGameModes docs)) = mentions gameModes docs.
Proof.
  unfold mentions, unwindGameModes. f_equal.
  induction docs as [|v docs IH]; [done|].
  rewrite bind_cons, length_app, length_fmap, IH. done.
Qed.

Lemma unique_is_length (values ids : list string) :
  let stats := default {| stats_count := 0; stats_unique := 0 |} (head (groupAll values)) in
  NoDup ids → (∀ x, x ∈ ids ↔ x ∈ values) →
  stats_unique stats = Z.of_nat (length ids)
  ∧ stats_count stats = Z.of_nat (length values)
  ∧ 0 <= stats_unique stats <= stats_count stats
  ∧ (stats_unique stats = 0 ↔ stats_count stats = 0).
Proof.
  intros stats Hnd Hin.
  destruct (groupAll_stats values) as (Hc & distinct & Hu & Hnd' & Hin').
  fold stats in Hc, Hu.
  assert (distinct ≡ₚ ids) as Hperm.
  { apply NoDup_Permutation; [done..|]. intros x. by rewrite Hin, Hin'. }
  assert (length distinct ≤ length values)%nat as Hle.
  { apply submseteq_length, NoDup_submseteq; [done|]. intros x. apply Hin'. }
  rewrite Hu, Hc, <- Hperm. split; [done|]. split; [done|]. split; [lia|].
  assert (distinct = [] ↔ values = []) as Hnil.
  { split; intros ->.
    - destruct values as [|x ?]; [done|]. specialize (Hin' x). set_solver.
    - destruct distinct as [|y ?]; [done|]. specialize (Hin' y). set_solver. }
  split; intros H0.
  - assert (length distinct = 0%nat) as Hd by lia.
    apply length_zero_iff_nil, Hnil in Hd. by rewrite Hd.
  - assert (length values = 0%nat) as Hv by lia.
    apply length_zero_iff_nil, Hnil in Hv. by rewrite Hv.
Qed.

Lemma brawler_stats (db : list video) (channels users feedback : Z) (now : string) :
  let stats := Stats.brawlerStats (getDatabaseStats db channels users feedback now) in
  stats_count stats = mentions brawlers db
  ∧ stats_unique stats = Z.of_nat (length (getAllBrawlers db))
  ∧ 0 <= stats_unique stats <= stats_count stats
  ∧ (stats_unique stats = 0 ↔ stats_count stats = 0).
Proof.
  destruct (sorted_ids (unwindBrawlers db)) as (_ & Hnd & Hin).
  destruct (unique_is_length (unwindBrawlers db).*1 _ Hnd Hin)
    as (Hu & Hc & Hle & Hz).
  rewrite length_fmap, length_unwindBrawlers in Hc.
  unfold getDatabaseStats, getAllBrawlers. simpl. by rewrite <- Hc.
Qed.

Lemma gameMode_stats (db : list video) (channels users feedback : Z) (now : string) :
  let stats := Stats.gameModeStats (getDatabaseStats db channels users feedback now) in
  stats_count stats = mentions gameModes db
  ∧ stats_unique stats = Z.of_nat (length (getAllGameModes db))
  ∧ 0 <= stats_unique stats <= stats_count stats
  ∧ (stats_unique stats = 0 ↔ stats_count stats = 0).
Proof.
  destruct (sorted_ids (unwindGameModes db)) as (_ & Hnd & Hin).
  destruct (unique_is_length (unwindGameModes db).*1 _ Hnd Hin)
    as (Hu & Hc & Hle & Hz).
  rewrite length_fmap, length_unwindGameModes in Hc.
  unfold getDatabaseStats, getAllGameModes. simpl. by rewrite <- Hc.
Qed.

(** X6. In the statistics of the store, the count of the brawler (game
    mode) statistics is the number of brawler (game mode) entries over
    all documents, and the unique number is the number of names that the
    list of all brawlers (game modes) holds; the unique number is never
    above the count, and the two are zero together, which is the case
    when no document has an entry. *)
Theorem database_stats_of_arrays (db : list video) (channels users feedback : Z)
    (now : string) :
  let stats := getDatabaseStats db channels users feedback now in
  Stats.videoCount stats = Z.of_nat (length db)
  ∧ (stats_count (Stats.brawlerStats stats) = mentions brawlers db
     ∧ stats_unique (Stats.brawlerStats stats) = Z.of_nat (length (getAllBrawlers db))
     ∧ 0 <= stats_unique (Stats.brawlerStats stats) <= stats_count (Stats.brawlerStats stats)
     ∧ (stats_unique (Stats.brawlerStats stats) = 0
        ↔ stats_count (Stats.brawlerStats stats) = 0))
  ∧ (stats_count (Stats.gameModeStats stats) = mentions gameModes db
     ∧ stats_unique (Stats.gameModeStats stats) = Z.of_nat (length (getAllGameModes db))
     ∧ 0 <= stats_unique (Stats.gameModeStats stats) <= stats_count (Stats.gameModeStats stats)
     ∧ (stats_unique (Stats.gameModeStats stats) = 0
        ↔ stats_count (Stats.gameModeStats stats) = 0)).
Proof.
  intros stats. split; [done|]. split.
  - apply brawler_stats.
  - apply gameMode_stats.
Qed.

Lemma database_stats_of_arrays_witness :
  stats_unique (Stats.brawlerStats (getDatabaseStats sampleDb 0 0 0 "2024-05-01T00:00:00.000Z"))
  = Z.of_nat (length (getAllBrawlers sampleDb)).
Proof.
  apply (database_stats_of_arrays sampleDb 0 0 0 "2024-05-01T00:00:00.000Z").
Defined.

Example database_stats_of_sample :
  getDatabaseStats sampleDb 2 5 7 "2024-05-01T00:00:00.000Z"
  = {| Stats.videoCount := 3; Stats.channelCount := 2; Stats.userCount := 5;
       Stats.feedbackCount := 7;
       Stats.brawlerStats := {| stats_count := 4; stats_unique := 3 |};
       Stats.gameModeStats := {| stats_count := 3; stats_unique := 2 |};
       Stats.mostRecentVideo := Some "2024-04-15T18:30:00.000Z";
       Stats.lastUpdated := "2024-05-01T00:00:00.000Z" |}.
Proof. vm_compute. reflexivity. Qed.

Example database_stats_of_empty_store :
  getDatabaseStats [] 0 0 0 "2024-05-01T00:00:00.000Z"
  = {| Stats.videoCount := 0; Stats.channelCount := 0; Stats.userCount := 0;
       Stats.feedbackCount := 0;
       Stats.brawlerStats := {| stats_count := 0; stats_unique := 0 |};
       Stats.gameModeStats := {| stats_count := 0; stats_unique := 0 |};
       Stats.mostRecentVideo := None;
       Stats.lastUpdated := "2024-05-01T00:00:00.000Z" |}.
Proof. vm_compute. reflexivity. Qed.

#[global] Instance publishedFirst_total : Total publishedFirst.
Proof.
  intros a b. unfold publishedFirst.
  rewrite (fieldCompare_antisym "publishedAt" b a).
  destruct (fieldCompare "publishedAt" a b); simpl; auto.
Qed.

Lemma publishedFirst_spec (a b : video) : publishedFirst a b ↔ byPublishedAt a b.
Proof.
  unfold publishedFirst, byPublishedAt, fieldCompare. simpl.
  by rewrite String_leb_compare.
Qed.

#[global] Instance byPublishedAt_trans : Transitive byPublishedAt.
Proof. intros a b c Hab Hbc. unfold byPublishedAt in *. eapply String_leb_trans; eauto. Qed.

(** X7. The most recent video of the statistics is absent exactly when
    the store has no document; otherwise it is the publish timestamp of a
    document of the store, and no document of the store has a later one. *)
Theorem most_recent_video_is_latest (db : list video) (channels users feedback : Z)
    (now : string) :
  let stats := getDatabaseStats db channels users feedback now in
  (Stats.mostRecentVideo stats = None ↔ db = [])
  ∧ ∀ d, Stats.mostRecentVideo stats = Some d →
         (∃ v, v ∈ db ∧ publishedAt v = d)
         ∧ ∀ v, v ∈ db → String.leb (publishedAt v) d = true.
Proof.
  intros stats. unfold stats, getDatabaseStats. simpl.
  rewrite cursorLimit_positive by lia.
  assert (StronglySorted byPublishedAt (merge_sort publishedFirst db)) as Hsorted.
  { apply Sorted_StronglySorted; [apply _|].
    eapply Sorted_impl; [|apply Sorted_merge_sort; apply _].
    intros a b. apply publishedFirst_spec. }
  pose proof (merge_sort_Permutation publishedFirst db) as Hperm.
  destruct (merge_sort publishedFirst db) as [|x sorted]; simpl.
  - apply Permutation_nil_l in Hperm. subst. split; [done|]. done.
  - split.
    + split; [done|]. intros ->. by apply Permutation_nil_r in Hperm.
    + intros d [= <-]. split.
      * exists x. split; [|done]. rewrite <- Hperm. apply list_elem_of_here.
      * intros v Hv. rewrite <- Hperm in Hv.
        apply StronglySorted_cons in Hsorted as [Hx _].
        apply elem_of_cons in Hv as [->|Hv].
        -- apply String_leb_spec. by left.
        -- rewrite Forall_forall in Hx. by apply Hx.
Qed.

Lemma most_recent_video_is_latest_witness :
  String.leb (publishedAt shellyVideo) "2024-04-15T18:30:00.000Z" = true.
Proof.
  refine (proj2 (proj2 (most_recent_video_is_latest sampleDb 0 0 0
                          "2024-05-01T00:00:00.000Z")
                   "2024-04-15T18:30:00.000Z" _) shellyVideo _).
  - vm_compute. reflexivity.
  - unfold sampleDb. do 2 apply list_elem_of_further. apply list_elem_of_here.
Defined.

(** ** getPopularContentCreators *)

Lemma sumOf_app {A} (f : A → Z) (l k : list A) :
  sumOf f (l ++ k) = sumOf f l + sumOf f k.
Proof. unfold sumOf. induction l as [|x l IH]; simpl; [done|]. rewrite IH. lia. Qed.

#[global] Instance sumOf_Permutation {A} (f : A → Z) :
  Proper ((≡ₚ) ==> (=)) (sumOf f).
Proof. induction 1; simpl; lia. Qed.

Lemma sumOf_fmap {A B} (g : A → B) (f : B → Z) (l : list A) :
  sumOf f (g <$> l) = sumOf (f ∘ g) l.
Proof.
  unfold sumOf. induction l as [|x l IH]; simpl; [done|]. f_equal. exact IH.
Qed.

Lemma sumOf_ones {A} (l : list A) : sumOf (λ _, 1) l = Z.of_nat (length l).
Proof.
  induction l as [|x l IH]; [done|].
  cbn [length sumOf foldr]. rewrite Nat2Z.inj_succ. unfold sumOf in IH. lia.
Qed.

Lemma sumOf_accumulate {S} (m : S → Z) (w : Z) (k : string) (new : S)
    (step : S → S) (groups : list (string * S)) :
  m new = w → (∀ s, m (step s) = m s + w) →
  sumOf (m ∘ snd) (accumulate k new step groups) = sumOf (m ∘ snd) groups + w.
Proof.
  intros Hnew Hstep. induction groups as [|[k' s] groups IH]; simpl.
  - lia.
  - case_decide; simpl; [rewrite Hstep|rewrite IH]; lia.
Qed.

(** The accumulators of the groups add up to what the rows bring. *)
Lemma sumOf_groupBy {A S} (key : A → string) (new : A → S) (step : A → S → S)
    (m : S → Z) (w : A → Z) (rows : list A) :
  (∀ r, m (new r) = w r) → (∀ r s, m (step r s) = m s + w r) →
  sumOf (m ∘ snd) (groupBy key new step rows) = sumOf w rows.
Proof.
  intros Hnew Hstep. unfold groupBy.
  assert (∀ groups : list (string * S),
            sumOf (m ∘ snd)
              (foldl (λ groups r, accumulate (key r) (new r) (step r) groups) groups rows)
            = sumOf (m ∘ snd) groups + sumOf w rows) as Hgen.
  { induction rows as [|r rows IH]; intros groups; simpl; [lia|].
    rewrite IH, (sumOf_accumulate m (w r)) by auto. lia. }
  rewrite Hgen. simpl. lia.
Qed.

Lemma advance_creators (url : video → option string) (k : string)
    (rows : list video) (o : option creatorGroup) :
  foldl (advance (λ v, creator_id (video_creator v))
           (λ v, {| group_name := creator_name (video_creator v);
                    group_url := url v;
                    group_videoCount := 1;
                    group_totalViews := viewCount v |})
           (λ v g, {| group_name := group_name g;
                      group_url := group_url g;
                      group_videoCount := group_videoCount g + 1;
                      group_totalViews := group_totalViews g + viewCount v |}) k)
        o rows
  = match videosOf k rows with
    | [] => o
    | first :: rest =>
        Some {| group_name := from_option group_name (creator_name (video_creator first)) o;
                group_url := from_option group_url (url first) o;
                group_videoCount :=
                  from_option group_videoCount 0 o + Z.of_nat (length (first :: rest));
                group_totalViews :=
                  from_option group_totalViews 0 o + sumOf viewCount (first :: rest) |}
    end.
Proof.
  unfold videosOf. revert o. induction rows as [|v rows IH]; intros o; [done|].
  cbn [foldl]. rewrite IH. unfold advance.
  destruct (decide (k = creator_id (video_creator v))) as [Hk|Hk].
  - rewrite (filter_cons_True (λ v, creator_id (video_creator v) = k)) by done.
    destruct (filter (λ v, creator_id (video_creator v) = k) rows) as [|v' occ];
      destruct o as [g|]; unfold sumOf; simpl; f_equal; f_equal; first [done | lia].
  - by rewrite (filter_cons_False (λ v, creator_id (video_creator v) = k)) by done.
Qed.

Lemma elem_of_groupCreators (url : video → option string) (db : list video)
    (k : string) (g : creatorGroup) :
  (k, g) ∈ groupCreators url db
  ↔ ∃ first rest,
      videosOf k db = first :: rest
      ∧ g = {| group_name := creator_name (video_creator first);
               group_url := url first;
               group_videoCount := Z.of_nat (length (first :: rest));
               group_totalViews := sumOf viewCount (first :: rest) |}.
Proof.
  unfold groupCreators. rewrite elem_of_groupBy, advance_creators.
  destruct (videosOf k db) as [|first rest]; [naive_solver|].
  cbn [from_option]. rewrite !Z.add_0_l. naive_solver.
Qed.

#[global] Instance byTotalViews_total : Total byTotalViews.
Proof. intros a b. unfold byTotalViews. lia. Qed.

#[global] Instance byTotalViews_trans : Transitive byTotalViews.
Proof. intros a b c. unfold byTotalViews. lia. Qed.

Lemma getPopularContentCreators_valid (url : video → option string) (db : list video)
    (limit page : Z) :
  1 <= page → 0 < limit →
  getPopularContentCreators url db limit page
  = inr {| creators :=
             take (Z.to_nat limit)
               (drop (Z.to_nat ((page - 1) * limit))
                  (projectCreator <$> merge_sort byTotalViews (groupCreators url db)));
           creators_pagination :=
             {| total := Z.of_nat (length (groupCreators url db));
                page := page; limit := limit;
                pages := ceilDiv (Z.of_nat (length (groupCreators url db))) limit |} |}.
Proof.
  intros Hpage Hlimit. unfold getPopularContentCreators, stage_skip, stage_limit.
  rewrite decide_True by nia. rewrite decide_True by done.
  by rewrite fmap_take, fmap_drop.
Qed.



Example creators_of_sample :
  getPopularContentCreators (λ _, None) sampleDb 10 1
  = inr {| creators :=
             [ {| Creator.id := "UC-kairos"; Creator.name := "KairosTime";
                  Creator.url := None; Creator.videoCount := 1;
                  Creator.totalViews := 900000 |};
               {| Creator.id := "UC-lex"; Creator.name := "Lex";
                  Creator.url := None; Creator.videoCount := 2;
                  Creator.totalViews := 700000 |} ];
           creators_pagination :=
             {| total := 2; page := 1; limit := 10; pages := Num 1 |} |}.
Proof. vm_compute. reflexivity. Qed.

(** X9. When the first page of the creators has room for all of them
    (the reported total is not above the limit), the video counts of the
    returned creators add up to the number of documents of the store and
    their total views to the sum of the view counts of the store. *)
Theorem creators_counts_add_up (url : video → option string) (db : list video)
    (limit : Z) (r : creatorsResult) :
  getPopularContentCreators url db limit 1 = inr r →
  total (creators_pagination r) <= limit →
  sumOf Creator.videoCount (creators r) = Z.of_nat (length db)
  ∧ sumOf Creator.totalViews (creators r) = sumOf viewCount db.
Proof.
  intros Hr Htotal.
  assert (0 < limit) as Hlimit.
  { unfold getPopularContentCreators, stage_skip, stage_limit in Hr. simpl in Hr.
    destruct (decide (0 < limit)); [done|]. done. }
  rewrite getPopularContentCreators_valid in Hr by lia.
  injection Hr as <-. simpl in *.
  rewrite drop_0, take_ge by (rewrite length_fmap, merge_sort_Permutation; lia).
  rewrite !sumOf_fmap, !merge_sort_Permutation. unfold groupCreators. split.
  - rewrite (sumOf_groupBy _ _ _ group_videoCount (λ _, 1)) by done.
    apply sumOf_ones.
  - by rewrite (sumOf_groupBy _ _ _ group_totalViews viewCount).
Qed.

Lemma creators_counts_add_up_witness :
  sumOf Creator.videoCount
    [ {| Creator.id := "UC-kairos"; Creator.name := "KairosTime";
         Creator.url := None; Creator.videoCount := 1;
         Creator.totalViews := 900000 |};
      {| Creator.id := "UC-lex"; Creator.name := "Lex";
         Creator.url := None; Creator.videoCount := 2;
         Creator.totalViews := 700000 |} ]
  = Z.of_nat (length sampleDb).
Proof.
  apply (creators_counts_add_up (λ _, None) sampleDb 10
           {| creators :=
                [ {| Creator.id := "UC-kairos"; Creator.name := "KairosTime";
                     Creator.url := None; Creator.videoCount := 1;
                     Creator.totalViews := 900000 |};
                  {| Creator.id := "UC-lex"; Creator.name := "Lex";
                     Creator.url := None; Creator.videoCount := 2;
                     Creator.totalViews := 700000 |} ];
              creators_pagination :=
                {| total := 2; page := 1; limit := 10; pages := Num 1 |} |}).
  - vm_compute. reflexivity.
  - simpl. lia.
Defined.

(** ** getTrendingBrawlers and the other aggregations *)

Lemma sumOf_nonneg {A} (f : A → Z) (l : list A) :
  (∀ x, x ∈ l → 0 <= f x) → 0 <= sumOf f l.
Proof.
  unfold sumOf. induction l as [|x l IH]; intros Hf; simpl; [done|].
  assert (0 <= f x) by (apply Hf, list_elem_of_here).
  assert (0 <= foldr (λ x t, f x + t) 0 l)
    by (apply IH; intros y Hy; by apply Hf, list_elem_of_further).
  lia.
Qed.

Lemma sumOf_ext {A} (f g : A → Z) (l : list A) :
  (∀ x, f x = g x) → sumOf f l = sumOf g l.
Proof.
  intros Hfg. unfold sumOf. induction l as [|x l IH]; simpl; [done|].
  by rewrite Hfg, IH.
Qed.

Lemma sumOf_take_le {A} (f : A → Z) (n : nat) (l : list A) :
  (∀ x, x ∈ l → 0 <= f x) → sumOf f (take n l) <= sumOf f l.
Proof.
  intros Hf. rewrite <- (take_drop n l) at 2. rewrite sumOf_app.
  assert (0 <= sumOf f (drop n l)); [|lia].
  apply sumOf_nonneg. intros x Hx. by apply Hf, (subseteq_drop n).
Qed.

(** X10. The brawlers of a trending list are distinct and each is in the
    list of all brawlers; each entry counts at least one mention, and
    the counts of the entries together are not above the count of the
    brawler statistics of the store. *)
Theorem trending_brawlers_are_known (db : list video) (limit : option Z)
    (startDate : string) (rs : list Trending.t) (channels users feedback : Z)
    (now : string) :
  getTrendingBrawlers db limit startDate = inr rs →
  NoDup (Trending.brawler <$> rs)
  ∧ (∀ e, e ∈ rs → Trending.brawler e ∈ getAllBrawlers db ∧ 1 <= Trending.count e)
  ∧ sumOf Trending.count rs
    <= stats_count (Stats.brawlerStats (getDatabaseStats db channels users feedback now)).
Proof.
  intros Hrs. apply stage_limit_inr in Hrs as [Hlimit ->].
  set (window := filter (inWindow startDate) db).
  assert (∀ e, e ∈ trendingEntries db startDate → 1 <= Trending.count e) as Hcount.
  { intros e He. apply elem_of_trendingEntries in He as (Hne & -> & _).
    destruct (mentionsOf _ db startDate); [done|]. simpl. lia. }
  split; [|split].
  - rewrite fmap_take. eapply sublist_NoDup; [|apply sublist_take].
    rewrite merge_sort_Permutation. unfold trendingEntries.
    rewrite <- list_fmap_compose.
    rewrite (list_fmap_ext (Trending.brawler ∘ addTrendingScore) fst _) by done.
    apply NoDup_groupBy.
  - intros e He. apply subseteq_take in He. rewrite merge_sort_Permutation in He.
    split; [|by apply Hcount].
    apply elem_of_trendingEntries in He as (Hne & _).
    apply mentionsOf_nonempty in Hne as (v & Hv & _ & Hb).
    apply elem_of_getAllBrawlers. eauto.
  - etrans; [apply sumOf_take_le|].
    { intros e He. rewrite merge_sort_Permutation in He. apply Hcount in He. lia. }
    rewrite merge_sort_Permutation. unfold trendingEntries.
    rewrite sumOf_fmap, (sumOf_ext _ (fst ∘ snd)) by done.
    unfold groupBrawlers.
    rewrite (sumOf_groupBy fst _ _ fst (λ _, 1)) by done.
    rewrite sumOf_ones.
    destruct (brawler_stats db channels users feedback now) as (-> & _).
    rewrite <- length_unwindBrawlers. apply inj_le.
    apply submseteq_length, sublist_submseteq.
    unfold unwindBrawlers. apply bind_sublist, sublist_filter.
Qed.

Lemma trending_brawlers_are_known_witness :
  sumOf Trending.count
    [ {| Trending.brawler := "Mortis"; Trending.count := 2;
         Trending.totalViews := 700000;
         Trending.score := trendingScore 2 700000 |};
      {| Trending.brawler := "Shelly"; Trending.count := 1;
         Trending.totalViews := 900000;
         Trending.score := trendingScore 1 900000 |} ]
  <= stats_count (Stats.brawlerStats
                    (getDatabaseStats sampleDb 0 0 0 "2024-05-01T00:00:00.000Z")).
Proof.
  apply (trending_brawlers_are_known sampleDb (Some 2) "2024-01-01T00:00:00.000Z"
           _ 0 0 0 "2024-05-01T00:00:00.000Z" trending_sample).
Defined.

(** ** saveSearchQuery *)

Lemma groupBy_snoc {A S} (key : A → string) (new : A → S) (step : A → S → S)
    (rows : list A) (r : A) :
  groupBy key new step (rows ++ [r])
  = accumulate (key r) (new r) (step r) (groupBy key new step rows).
Proof. unfold groupBy. by rewrite foldl_snoc. Qed.

Lemma length_accumulate {T} (k : string) (new : T) (step : T → T)
    (groups : list (string * T)) :
  length (accumulate k new step groups)
  = if decide (k ∈ groups.*1) then length groups else S (length groups).
Proof.
  rewrite <- (length_fmap fst), accumulate_keys.
  case_decide; rewrite ?length_app, length_fmap; simpl; lia.
Qed.

Lemma getPopularSearchQueries_first_page (history : list searchRow) (limit : Z)
    (startDate : string) (r : popularResult) :
  getPopularSearchQueries history limit startDate 1 = inr r →
  0 < limit
  ∧ queries r = take (Z.to_nat limit) (projectQuery <$> popularEntries history startDate)
  ∧ total (popular_pagination r)
    = Z.of_nat (length (projectQuery <$> popularEntries history startDate)).
Proof.
  unfold getPopularSearchQueries, stage_skip, stage_limit. simpl.
  case_decide; [|done]. intros [= <-]. simpl.
  by rewrite fmap_take, drop_0, length_fmap.
Qed.

Lemma searchesOf_saved (q q' now startDate : string) (history : list searchRow) :
  String.leb startDate now = true →
  searchesOf q' (saveSearchQuery history q now true) startDate
  = searchesOf q' history startDate
    ++ (if decide (q = q') then [ {| row_query := q; row_timestamp := now |} ] else []).
Proof.
  intros Hnow. unfold searchesOf, saveSearchQuery.
  rewrite !filter_app. f_equal.
  rewrite (filter_cons_True (λ r, String.leb startDate (row_timestamp r) = true)) by done.
  rewrite filter_nil, filter_cons, filter_nil. simpl. by repeat case_decide.
Qed.

Lemma length_popularEntries_saved (q now startDate : string) (history : list searchRow) :
  String.leb startDate now = true →
  length (popularEntries (saveSearchQuery history q now true) startDate)
  = if decide (searchesOf q history startDate = [])
    then S (length (popularEntries history startDate))
    else length (popularEntries history startDate).
Proof.
  intros Hnow. unfold popularEntries, saveSearchQuery.
  rewrite !merge_sort_Permutation, filter_app.
  rewrite (filter_cons_True (λ r, String.leb startDate (row_timestamp r) = true)) by done.
  rewrite filter_nil. unfold groupQueries. rewrite groupBy_snoc, length_accumulate.
  simpl. set (window := filter _ history).
  destruct (decide (q ∈ (groupBy row_query (λ _, 1) (λ _ c, c + 1) window).*1))
    as [Hin|Hnin].
  - rewrite decide_False; [by rewrite merge_sort_Permutation|]. apply groupBy_keys in Hin.
    apply list_elem_of_fmap in Hin as (r & -> & Hr). unfold searchesOf. fold window.
    intros Hnil. eapply (filter_nil_not_elem_of _ _ r Hnil); done.
  - rewrite decide_True; [by rewrite merge_sort_Permutation|].
    unfold searchesOf. fold window.
    destruct (filter (λ r, row_query r = q) window) as [|r rest] eqn:Hf; [done|].
    exfalso. apply Hnin, groupBy_keys, list_elem_of_fmap. exists r.
    assert (r ∈ filter (λ r, row_query r = q) window) as Hr
      by (rewrite Hf; apply list_elem_of_here).
    apply list_elem_of_filter in Hr as [Hq Hr]. done.
Qed.

(** X11. After a query is saved at a time of the window, the first page
    of the popular queries, when it has room for all of them, counts that
    query once more than before, or once when it was not there, and
    shows every other query as before; the reported total grows by one
    exactly when the query is new. *)
Theorem saved_query_is_counted (history : list searchRow) (query now startDate : string)
    (limit : Z) (before after : popularResult) :
  String.leb startDate now = true →
  getPopularSearchQueries history limit startDate 1 = inr before →
  getPopularSearchQueries (saveSearchQuery history query now true) limit startDate 1
    = inr after →
  total (popular_pagination after) <= limit →
  (∀ c, {| Popular.query := query; Popular.count := c |} ∈ queries before →
        {| Popular.query := query; Popular.count := c + 1 |} ∈ queries after)
  ∧ ((∀ c, {| Popular.query := query; Popular.count := c |} ∉ queries before) →
     {| Popular.query := query; Popular.count := 1 |} ∈ queries after
     ∧ total (popular_pagination after) = total (popular_pagination before) + 1)
  ∧ ((∃ c, {| Popular.query := query; Popular.count := c |} ∈ queries before) →
     total (popular_pagination after) = total (popular_pagination before))
  ∧ (∀ e, Popular.query e ≠ query → e ∈ queries before ↔ e ∈ queries after).
Proof.
  intros Hnow Hb Ha Hroom.
  apply getPopularSearchQueries_first_page in Hb as (Hlimit & Hqb & Htb).
  apply getPopularSearchQueries_first_page in Ha as (_ & Hqa & Hta).
  rewrite length_fmap in Htb, Hta.
  pose proof (length_popularEntries_saved query now startDate history Hnow) as Hlen.
  rewrite take_ge in Hqa by (rewrite length_fmap; lia).
  rewrite take_ge in Hqb by (rewrite length_fmap; case_decide; lia).
  rewrite Hqa, Hqb, Hta, Htb. clear Hqa Hqb Hta Htb.
  split; [|split; [|split]].
  - intros c Hc. apply elem_of_popularEntries in Hc as [Hne Hc].
    apply elem_of_popularEntries. cbn [Popular.query Popular.count] in *.
    rewrite searchesOf_saved, decide_True by done.
    split; [by destruct (searchesOf query history startDate)|].
    rewrite length_app. simpl. lia.
  - intros Hnone.
    assert (searchesOf query history startDate = []) as Hnil.
    { destruct (searchesOf query history startDate) as [|r rest] eqn:Hs; [done|].
      exfalso. apply (Hnone (Z.of_nat (length (r :: rest)))).
      apply elem_of_popularEntries. simpl. by rewrite Hs. }
    split.
    + apply elem_of_popularEntries. cbn [Popular.query Popular.count].
      rewrite searchesOf_saved, decide_True, Hnil by done. done.
    + rewrite Hlen, decide_True by done. lia.
  - intros (c & Hc). apply elem_of_popularEntries in Hc as [Hne _]. simpl in Hne.
    rewrite Hlen, decide_False by done. done.
  - intros e He. rewrite !elem_of_popularEntries.
    rewrite searchesOf_saved, decide_False by done.
    by rewrite (right_id_L [] (++)).
Qed.

Lemma saved_query_is_counted_witness :
  {| Popular.query := "mortis"; Popular.count := 3 + 1 |}
  ∈ [ {| Popular.query := "mortis"; Popular.count := 4 |};
      {| Popular.query := "shelly guide"; Popular.count := 2 |} ].
Proof.
  refine (proj1 (saved_query_is_counted sampleHistory "mortis"
           "2024-03-07T09:00:00.000Z" "2024-01-01T00:00:00.000Z" 5
           {| queries := [ {| Popular.query := "mortis"; Popular.count := 3 |};
                           {| Popular.query := "shelly guide"; Popular.count := 2 |} ];
              popular_pagination :=
                {| total := 2; page := 1; limit := 5; pages := Num 1 |} |}
           {| queries := [ {| Popular.query := "mortis"; Popular.count := 4 |};
                           {| Popular.query := "shelly guide"; Popular.count := 2 |} ];
              popular_pagination :=
                {| total := 2; page := 1; limit := 5; pages := Num 1 |} |}
           _ _ _ _) 3 _).
  - reflexivity.
  - vm_compute. reflexivity.
  - vm_compute. reflexivity.
  - simpl. lia.
  - apply list_elem_of_here.
Defined.

(** ** callLLMWithRetry *)

Section retry.
Context {E A : Type} (apiCall : nat → E + A) (random : nat → Q) (maxRetries : Z).

Lemma retryLoop_success (fuel calls i : nat) (a : A) (lastError : option E)
    (delays : list Q) :
  (calls ≤ i)%nat → Z.of_nat i <= maxRetries → (i - calls < fuel)%nat →
  apiCall i = inr a →
  (∀ j, (calls ≤ j < i)%nat → ∃ e, apiCall j = inl e) →
  retryLoop apiCall random maxRetries fuel (Z.of_nat calls) lastError calls delays
  = {| run_outcome := inr a; run_calls := S i;
       run_delays := delays ++ waits random calls (i - calls) |}.
Proof.
  revert calls lastError delays.
  induction fuel as [|fuel IH]; intros calls lastError delays Hle Hmax Hfuel Hi Hfail;
    [lia|].
  simpl. rewrite decide_True by lia.
  destruct (decide (calls = i)) as [->|Hne].
  - rewrite Hi, Nat.sub_diag. unfold waits. simpl. by rewrite app_nil_r.
  - destruct (Hfail calls) as [e He]; [lia|]. rewrite He.
    rewrite decide_True by lia.
    replace (Z.of_nat calls + 1) with (Z.of_nat (S calls)) by lia.
    rewrite IH; [|lia|done|lia|done|intros j Hj; apply Hfail; lia].
    f_equal. rewrite <- app_assoc. f_equal.
    replace (i - calls)%nat with (S (i - S calls)) by lia.
    unfold waits. simpl. do 3 f_equal. lia.
Qed.

Lemma retryLoop_failure (fuel calls : nat) (lastError : option E) (delays : list Q) :
  (calls ≤ attempts maxRetries)%nat → (attempts maxRetries - calls ≤ fuel)%nat →
  (∀ j, (calls ≤ j < attempts maxRetries)%nat → ∃ e, apiCall j = inl e) →
  let run :=
    retryLoop apiCall random maxRetries fuel (Z.of_nat calls) lastError calls delays in
  run_calls run = attempts maxRetries
  ∧ run_delays run = delays ++ waits random calls (attempts maxRetries - 1 - calls)
  ∧ (calls = attempts maxRetries → run_outcome run = inl lastError)
  ∧ (∀ e, (calls < attempts maxRetries)%nat →
          apiCall (attempts maxRetries - 1) = inl e →
          run_outcome run = inl (Some e)).
Proof.
  unfold attempts. revert calls lastError delays.
  induction fuel as [|fuel IH]; intros calls lastError delays Hle Hfuel Hfail; simpl.
  - replace (Z.to_nat (maxRetries + 1) - 1 - calls)%nat with 0%nat by lia.
    unfold waits. simpl. rewrite app_nil_r.
    split; [lia|]. split; [done|]. split; [done|]. intros; lia.
  - destruct (decide (Z.of_nat calls <= maxRetries)) as [Hgo|Hstop].
    + destruct (Hfail calls) as [e He]; [lia|]. rewrite He.
      replace (Z.of_nat calls + 1) with (Z.of_nat (S calls)) by lia.
      destruct (IH (S calls) (Some e)
                  (if decide (Z.of_nat (S calls) <= maxRetries)
                   then delays ++ [backoffDelay (Z.of_nat (S calls)) (random calls)]
                   else delays))
        as (Hcalls & Hdelays & Hlast & Hlater);
        [lia|lia|intros j Hj; apply Hfail; lia|].
      split; [done|]. split; [|split; [lia|]].
      * rewrite Hdelays. case_decide.
        -- rewrite <- app_assoc. f_equal.
           replace (Z.to_nat (maxRetries + 1) - 1 - calls)%nat
             with (S (Z.to_nat (maxRetries + 1) - 1 - S calls)) by lia.
           unfold waits. simpl. do 3 f_equal. lia.
        -- replace (Z.to_nat (maxRetries + 1) - 1 - S calls)%nat with 0%nat by lia.
           replace (Z.to_nat (maxRetries + 1) - 1 - calls)%nat with 0%nat by lia.
           done.
      * intros e' _ He'.
        destruct (decide (S calls = Z.to_nat (maxRetries + 1))) as [Heq|Hne].
        -- rewrite Hlast by done. rewrite <- Heq in He'.
           replace (S calls - 1)%nat with calls in He' by lia. congruence.
        -- apply Hlater; [lia|done].
    + replace (Z.to_nat (maxRetries + 1) - 1 - calls)%nat with 0%nat by lia.
      unfold waits. simpl. rewrite app_nil_r.
    split; [lia|]. split; [done|]. split; [done|]. intros; lia.
Qed.

Lemma backoffDelay_bounds (retries : Z) (r : Q) :
  1 <= retries → (0 <= r)%Q → (r < 1)%Q →
  (2000 <= backoffDelay retries r)%Q ∧ (backoffDelay retries r < 11000)%Q.
Proof.
  intros Hretries Hr0 Hr1. unfold backoffDelay.
  assert (2 ^ 1 <= 2 ^ retries) as Hpow by (apply Z.pow_le_mono_r; lia).
  change (2 ^ 1) with 2 in Hpow.
  assert (inject_Z 2000 <= inject_Z (Z.min (1000 * 2 ^ retries) 10000))%Q as Hlow
    by (rewrite <- Zle_Qle; lia).
  assert (inject_Z (Z.min (1000 * 2 ^ retries) 10000) <= inject_Z 10000)%Q as Hhigh
    by (rewrite <- Zle_Qle; lia).
  change (inject_Z 2000) with 2000%Q in Hlow.
  change (inject_Z 10000) with 10000%Q in Hhigh.
  set (base := inject_Z _) in *. clearbody base. split; Lqa.lra.
Qed.

Lemma retryLoop_bounds (P : Q → Prop) (fuel : nat) (retries : Z)
    (lastError : option E) (calls : nat) (delays : list Q) :
  0 <= retries →
  (∀ k retries', 1 <= retries' → P (backoffDelay retries' (random k))) →
  Forall P delays →
  let run := retryLoop apiCall random maxRetries fuel retries lastError calls delays in
  Forall P (run_delays run)
  ∧ (calls ≤ run_calls run ≤ calls + fuel)%nat
  ∧ (length (run_delays run) + calls ≤ length delays + run_calls run)%nat
  ∧ (∀ a, run_outcome run = inr a →
          (S (length (run_delays run) + calls) ≤ length delays + run_calls run)%nat
          ∧ apiCall (run_calls run - 1) = inr a).
Proof.
  intros Hretries HP. revert retries lastError calls delays Hretries.
  induction fuel as [|fuel IH]; intros retries lastError calls delays Hretries Hdelays;
    simpl.
  - split; [done|]. split; [lia|]. split; [lia|]. by intros a [=].
  - case_decide; simpl;
      [|split; [done|]; split; [lia|]; split; [lia|]; by intros a [=]].
    destruct (apiCall calls) as [e|a] eqn:Hcall; simpl.
    + destruct (IH (retries + 1) (Some e) (S calls)
                  (if decide (retries + 1 <= maxRetries)
                   then delays ++ [backoffDelay (retries + 1) (random calls)]
                   else delays))
        as (HPs & Hcalls & Hwaits & Hreturned); [lia| |].
      { case_decide; [|done]. apply Forall_app. split; [done|].
        apply Forall_singleton, HP. lia. }
      split; [done|]. split; [lia|].
      assert (length (if decide (retries + 1 <= maxRetries)%Z
                      then delays ++ [backoffDelay (retries + 1)%Z (random calls)]
                      else delays) ≤ S (length delays))%nat as Hgrown
        by (case_decide; rewrite ?length_app; simpl; lia).
      split; [lia|]. intros a Ha. destruct (Hreturned a Ha) as [Hless Hlast].
      split; [lia|done].
    + split; [done|]. split; [lia|]. split; [lia|]. intros a' [= <-].
      split; [lia|]. by rewrite Nat.sub_0_r.
Qed.

End retry.

(** X12. The retry loop returns the response of the first call that
    succeeds, when it is among the first [maxRetries + 1] calls (four
    by default): it has then called the API once more than the number of
    failures before, and waited once after each of these failures. More
    iterations than [maxRetries + 1] would change nothing. *)
Theorem retry_returns_first_success {E A} (apiCall : nat → E + A) (random : nat → Q)
    (maxRetries : option Z) (i : nat) (a : A) :
  (i < attempts (default default_max_retries maxRetries))%nat →
  apiCall i = inr a →
  (∀ j, (j < i)%nat → ∃ e, apiCall j = inl e) →
  callLLMWithRetry apiCall random maxRetries
  = {| run_outcome := inr a; run_calls := S i; run_delays := waits random 0 i |}
  ∧ ∀ fuel, (attempts (default default_max_retries maxRetries) ≤ fuel)%nat →
      retryLoop apiCall random (default default_max_retries maxRetries) fuel 0 None 0 []
      = callLLMWithRetry apiCall random maxRetries.
Proof.
  unfold callLLMWithRetry, attempts. intros Hi Ha Hfail.
  assert (∀ fuel, (Z.to_nat (default default_max_retries maxRetries + 1) ≤ fuel)%nat →
            retryLoop apiCall random (default default_max_retries maxRetries) fuel
              0 None 0 []
            = {| run_outcome := inr a; run_calls := S i;
                 run_delays := waits random 0 i |}) as Hrun.
  { intros fuel Hfuel.
    rewrite (retryLoop_success apiCall random _ fuel 0 i a None []);
      [by rewrite Nat.sub_0_r|lia|lia|lia|done|intros j Hj; apply Hfail; lia]. }
  split; [by apply Hrun|]. intros fuel Hfuel. by rewrite !Hrun.
Qed.

Lemma retry_returns_first_success_witness :
  callLLMWithRetry (λ k, if decide (k < 2)%nat then inl "overloaded" else inr "ok")
    (λ _, 0%Q) None
  = {| run_outcome := inr "ok"; run_calls := 3; run_delays := [2000%Q; 4000%Q] |}.
Proof.
  refine (eq_trans (proj1 (retry_returns_first_success
            (λ k, if decide (k < 2)%nat then inl "overloaded" else inr "ok")
            (λ _, 0%Q) None 2 "ok"%string _ _ _)) _).
  - vm_compute. lia.
  - reflexivity.
  - intros j Hj. exists "overloaded"%string. by rewrite decide_True.
  - vm_compute. reflexivity.
Defined.

(** X13. When each of the first [maxRetries + 1] calls fails, the retry
    loop throws the error of the last of them after exactly that many
    calls, with a delay after each failure but the last; a negative
    [maxRetries] makes it throw [undefined] without any call. *)
Theorem retry_gives_up_with_last_error {E A} (apiCall : nat → E + A) (random : nat → Q)
    (maxRetries : option Z) :
  let n := attempts (default default_max_retries maxRetries) in
  let run := callLLMWithRetry apiCall random maxRetries in
  (∀ j, (j < n)%nat → ∃ e, apiCall j = inl e) →
  run_calls run = n
  ∧ run_delays run = waits random 0 (n - 1)
  ∧ (∀ e, (0 < n)%nat → apiCall (n - 1)%nat = inl e → run_outcome run = inl (Some e))
  ∧ (default default_max_retries maxRetries < 0 →
     run = {| run_outcome := inl None; run_calls := 0; run_delays := [] |}).
Proof.
  intros n run Hfail. subst n run. unfold callLLMWithRetry.
  destruct (retryLoop_failure apiCall random (default default_max_retries maxRetries)
              (attempts (default default_max_retries maxRetries)) 0 None [])
    as (Hcalls & Hdelays & Hnone & Hlast);
    [lia|lia|intros j Hj; apply Hfail; lia|].
  fold (attempts (default default_max_retries maxRetries)).
  rewrite Nat.sub_0_r in Hdelays.
  split; [done|]. split; [done|]. split; [done|].
  intros Hneg. unfold attempts.
  replace (Z.to_nat (default default_max_retries maxRetries + 1)) with 0%nat by lia.
  done.
Qed.

Lemma retry_gives_up_with_last_error_witness :
  run_calls (callLLMWithRetry (A := string)
               (λ k, inl (if decide (k < 3)%nat then "overloaded" else "timeout"))
               (λ _, 0%Q) None) = 4%nat
  ∧ run_outcome (callLLMWithRetry (A := string)
               (λ k, inl (if decide (k < 3)%nat then "overloaded" else "timeout"))
               (λ _, 0%Q) None) = inl (Some "timeout").
Proof.
  destruct (retry_gives_up_with_last_error (A := string)
              (λ k, inl (if decide (k < 3)%nat then "overloaded" else "timeout"))
              (λ _, 0%Q) None) as (Hcalls & _ & Hlast & _).
  - intros j _. eexists. reflexivity.
  - split; [exact Hcalls|]. apply Hlast; [vm_compute; lia|reflexivity].
Defined.

(** X14. Whatever the calls do, the retry loop calls the API at most
    [maxRetries + 1] times, waits at most once per call, strictly fewer
    times than it calls when it returns a response, which is then the
    response of its last call; and every delay is at least 2 seconds and
    less than 11 seconds, [Math.random()] being in [0, 1). *)
Theorem retry_is_bounded {E A} (apiCall : nat → E + A) (random : nat → Q)
    (maxRetries : option Z) :
  let run := callLLMWithRetry apiCall random maxRetries in
  (∀ k, (0 <= random k)%Q ∧ (random k < 1)%Q) →
  (run_calls run ≤ attempts (default default_max_retries maxRetries))%nat
  ∧ (length (run_delays run) ≤ run_calls run)%nat
  ∧ Forall (λ d, (2000 <= d)%Q ∧ (d < 11000)%Q) (run_delays run)
  ∧ (∀ a, run_outcome run = inr a →
          (length (run_delays run) < run_calls run)%nat
          ∧ apiCall (run_calls run - 1)%nat = inr a).
Proof.
  intros run Hrandom. subst run. unfold callLLMWithRetry.
  destruct (retryLoop_bounds apiCall random (default default_max_retries maxRetries)
              (λ d, (2000 <= d)%Q ∧ (d < 11000)%Q)
              (Z.to_nat (default default_max_retries maxRetries + 1)) 0 None 0 [])
    as (Hdelays & Hcalls & Hwaits & Hreturned); [lia| |done|].
  { intros k retries Hretries. apply backoffDelay_bounds; [done|apply Hrandom..]. }
  unfold attempts. simpl in *.
  split; [lia|]. split; [lia|]. split; [done|].
  intros a Ha. destruct (Hreturned a Ha). split; [lia|done].
Qed.

Lemma retry_is_bounded_witness :
  (run_calls (callLLMWithRetry
                (λ k, if decide (k < 2)%nat then inl "overloaded" else inr "ok")
                (λ _, 1 # 2) (Some 5%Z)) ≤ 6)%nat.
Proof.
  apply (retry_is_bounded
           (λ k, if decide (k < 2)%nat then inl "overloaded" else inr "ok")
           (λ _, 1 # 2) (Some 5)).
  intros _. split; [discriminate|reflexivity].
Defined.

(** ** handleVideoFeedback *)

Lemma foldl_pushIfAbsent_app (set values : list string) :
  ∃ news, foldl pushIfAbsent set values = set ++ news
          ∧ NoDup news
          ∧ (length news ≤ length values)%nat
          ∧ ∀ x, x ∈ news ↔ x ∈ values ∧ x ∉ set.
Proof.
  revert set. induction values as [|y values IH]; intros set; simpl.
  - exists []. rewrite app_nil_r. split; [done|]. split; [apply NoDup_nil_2|].
    split; [done|]. intros x. rewrite !elem_of_nil. naive_solver.
  - destruct (IH (pushIfAbsent set y)) as (news & Heq & Hnd & Hlen & Hin).
    unfold pushIfAbsent in *. case_decide as Hy.
    + exists news. split; [done|]. split; [done|]. split; [lia|].
      intros x. rewrite Hin, elem_of_cons. naive_solver.
    + exists (y :: news). rewrite Heq, <- app_assoc. split; [done|].
      split; [|split; [simpl; lia|]].
      * apply NoDup_cons. split; [|done]. rewrite Hin, elem_of_app.
        rewrite list_elem_of_singleton. naive_solver.
      * intros x. rewrite !elem_of_cons, Hin, elem_of_app, list_elem_of_singleton.
        destruct (decide (x = y)); naive_solver.
Qed.

Lemma length_sliceLast {A} (n : nat) (l : list A) :
  length (sliceLast n l) = (n `min` length l)%nat.
Proof. unfold sliceLast. rewrite length_drop. lia. Qed.

Lemma sliceLast_suffix {A} (n : nat) (l : list A) : sliceLast n l `suffix_of` l.
Proof. apply suffix_drop. Qed.

Lemma sliceLast_app {A} (n : nat) (l news : list A) :
  (length news ≤ n)%nat → news `suffix_of` sliceLast n (l ++ news).
Proof.
  intros Hn. unfold sliceLast. rewrite length_app.
  rewrite drop_app_le by lia. by eexists.
Qed.

Lemma handleVideoFeedback_like (db : list video) (youtubeId : string)
    (preferredBrawlers : option (list string)) (v : video) :
  getVideoByYoutubeId db youtubeId = Some v → brawlers v ≠ [] →
  handleVideoFeedback db true youtubeId "like" preferredBrawlers
  = let pushed := foldl pushIfAbsent (default [] preferredBrawlers) (brawlers v) in
    {| feedback_response :=
         {| success := true; message := feedbackMessage "like" |};
       feedback_array := (λ _, pushed) <$> preferredBrawlers;
       feedback_saved :=
         Some (if decide (10 < length pushed)%nat then sliceLast 10 pushed else pushed) |}.
Proof.
  intros Hv Hb. unfold handleVideoFeedback. rewrite Hv.
  rewrite bool_decide_eq_true_2 by (destruct (brawlers v); [done|simpl; lia]).
  simpl. by destruct preferredBrawlers.
Qed.

Example liked_mortis_and_colt :
  handleVideoFeedback sampleDb true "vid-mortis-colt" "like" (Some ["Shelly"; "Mortis"])
  = {| feedback_response :=
         {| success := true; message := feedbackMessage "like" |};
       feedback_array := Some ["Shelly"; "Mortis"; "Colt"];
       feedback_saved := Some ["Shelly"; "Mortis"; "Colt"] |}.
Proof. reflexivity. Qed.

(** X15. A like on a stored video that names brawlers saves a list of
    preferred brawlers of at most ten entries: the final part of the
    earlier preferences followed by the brawlers of the video that were
    not among them. The list stays free of duplicates, nothing is
    dropped while there is room for all, and the new brawlers are all
    kept when there are at most ten of them. The array that was passed
    in holds the whole list, also what the saved one no longer has. *)
Theorem liked_brawlers_are_remembered (db : list video) (youtubeId : string)
    (preferredBrawlers : option (list string)) (v : video) :
  getVideoByYoutubeId db youtubeId = Some v → brawlers v ≠ [] →
  let earlier := default [] preferredBrawlers in
  let run := handleVideoFeedback db true youtubeId "like" preferredBrawlers in
  success (feedback_response run) = true
  ∧ ∃ saved news,
      feedback_saved run = Some saved
      ∧ feedback_array run = (λ _, earlier ++ news) <$> preferredBrawlers
      ∧ saved `suffix_of` earlier ++ news
      ∧ (length saved ≤ 10)%nat
      ∧ NoDup news
      ∧ (∀ x, x ∈ news ↔ x ∈ brawlers v ∧ x ∉ earlier)
      ∧ (NoDup earlier → NoDup saved)
      ∧ ((length earlier + length news ≤ 10)%nat → saved = earlier ++ news)
      ∧ ((length news ≤ 10)%nat → news `suffix_of` saved).
Proof.
  intros Hv Hb earlier run. subst run.
  rewrite (handleVideoFeedback_like db youtubeId preferredBrawlers v Hv Hb).
  fold earlier. cbn zeta.
  destruct (foldl_pushIfAbsent_app earlier (brawlers v))
    as (news & Heq & Hnd & _ & Hin).
  rewrite Heq. cbn [feedback_response feedback_saved feedback_array success].
  split; [done|].
  exists (if decide (10 < length (earlier ++ news))%nat
          then sliceLast 10 (earlier ++ news) else earlier ++ news), news.
  split; [done|]. split; [done|].
  split; [case_decide; [apply sliceLast_suffix|done]|].
  split; [case_decide; [rewrite length_sliceLast|]; lia|].
  split; [done|]. split; [done|].
  assert (NoDup earlier → NoDup (earlier ++ news)) as Hpushed.
  { intros Hearlier. apply NoDup_app. split; [done|]. split; [|done].
    intros x Hx Hnew. apply Hin in Hnew. naive_solver. }
  split; [|split].
  - intros Hearlier. case_decide; [|by apply Hpushed].
    apply (sublist_NoDup _ (earlier ++ news)); [by apply Hpushed|apply sublist_drop].
  - intros Hroom. rewrite decide_False; [done|]. rewrite length_app. lia.
  - intros Hroom. case_decide; [by apply sliceLast_app|]. by apply suffix_app_r.
Qed.

Lemma liked_brawlers_are_remembered_witness :
  success (feedback_response
             (handleVideoFeedback sampleDb true "vid-mortis-colt" "like"
                (Some ["Shelly"; "Mortis"]))) = true.
Proof.
  refine (proj1 (liked_brawlers_are_remembered sampleDb "vid-mortis-colt"
                   (Some ["Shelly"; "Mortis"]) mortisColtVideo _ _));
    [reflexivity|discriminate].
Defined.


(** ** The preferences of the session *)

Lemma rememberOne_remembered (cap : nat) (prefs : list string) (x : string) :
  remembered cap prefs [x] (rememberOne cap prefs x).
Proof.
  unfold remembered, rememberOne.
  destruct (decide (x ∈ prefs)) as [Hin|Hnin].
  { split; [done|]. split; [done|]. split; [done|]. split; [by left|].
    by intros _ y [= <-]. }
  rewrite length_app. simpl.
  destruct (decide (cap < length prefs + 1)%nat) as [Hover|Hroom].
  - split; [rewrite length_drop, length_app; simpl; lia|].
    split; [rewrite length_drop, length_app; simpl; lia|].
    split; [|split].
    + intros Hnd. apply (sublist_NoDup _ (prefs ++ [x])); [|apply sublist_drop].
      apply NoDup_app. split; [done|]. split; [|apply NoDup_singleton].
      intros y Hy Hx. apply list_elem_of_singleton in Hx. by subst.
    + intros y Hy. apply (subseteq_drop 1) in Hy. by apply elem_of_app in Hy.
    + intros Hcap y [= <-]. destruct prefs as [|p prefs]; simpl in *; [lia|].
      rewrite drop_0, elem_of_app, list_elem_of_singleton. by right.
  - split; [rewrite length_app; simpl; lia|]. split; [lia|]. split; [|split].
    + intros Hnd. apply NoDup_app. split; [done|]. split; [|apply NoDup_singleton].
      intros y Hy Hx. apply list_elem_of_singleton in Hx. by subst.
    + intros y Hy. by apply elem_of_app in Hy.
    + intros _ y [= <-]. rewrite elem_of_app, list_elem_of_singleton. by right.
Qed.

Lemma remember_remembered (cap : nat) (prefs : list string)
    (found : option (list string)) :
  remembered cap prefs (default [] found) (remember cap prefs found).
Proof.
  unfold remember. generalize (default [] found). clear found. intros found.
  induction found as [|x found IH] using rev_ind.
  - unfold remembered. simpl. split; [done|]. split; [done|]. split; [done|].
    split; [by left|done].
  - rewrite foldl_snoc. set (mid := foldl (rememberOne cap) prefs found) in *.
    destruct IH as (Hcap & Hlong & Hnd & Hin & _).
    destruct (rememberOne_remembered cap mid x) as (Hcap' & Hlong' & Hnd' & Hin' & Hlast').
    unfold remembered. split; [auto|]. split; [|split; [auto|split]].
    + intros Hle. rewrite Hlong'; [by apply Hlong|]. rewrite Hlong; done.
    + intros y Hy. rewrite elem_of_app. apply Hin' in Hy as [Hy|Hy]; [|naive_solver].
      apply Hin in Hy. naive_solver.
    + intros Hpos y. rewrite last_snoc. intros [= <-]. by apply Hlast'.
Qed.

(** X17. After a message of the conversation the history of the session
    holds at most 20 messages and ends with the message and its answer;
    each list of preferences has taken the items of the search
    parameters without duplicates and stays within its cap (10 brawlers,
    5 game modes, 5 content types) when it was within it, keeps its
    length when it was longer, and holds the last item found. *)
Theorem session_update_is_capped (s : Session.t) (userMessage responseMessage : string)
    (brawlers gameModes contentType : option (list string)) :
  let s' := updateSession s userMessage responseMessage brawlers gameModes contentType in
  let exchange := [ {| role := "user"; content := userMessage |};
                    {| role := "assistant"; content := responseMessage |} ] in
  (length (Session.conversationHistory s') ≤ 20)%nat
  ∧ exchange `suffix_of` Session.conversationHistory s'
  ∧ Session.conversationHistory s'
    `suffix_of` Session.conversationHistory s ++ exchange
  ∧ remembered 10 (Session.preferredBrawlers s) (default [] brawlers)
      (Session.preferredBrawlers s')
  ∧ remembered 5 (Session.preferredGameModes s) (default [] gameModes)
      (Session.preferredGameModes s')
  ∧ remembered 5 (Session.preferredContentTypes s) (default [] contentType)
      (Session.preferredContentTypes s').
Proof.
  simpl. split; [rewrite length_sliceLast; lia|].
  split; [by apply sliceLast_app; simpl; lia|].
  split; [apply sliceLast_suffix|].
  repeat split; apply remember_remembered.
Qed.

Example session_after_eleventh_brawler :
  Session.preferredBrawlers
    (updateSession
       {| Session.preferredBrawlers :=
            ["b1"; "b2"; "b3"; "b4"; "b5"; "b6"; "b7"; "b8"; "b9"; "b10"];
          Session.preferredGameModes := []; Session.preferredContentTypes := [];
          Session.conversationHistory := [] |}
       "mortis tips" "Here are some videos" (Some ["Mortis"; "b2"]) None None)
  = ["b2"; "b3"; "b4"; "b5"; "b6"; "b7"; "b8"; "b9"; "b10"; "Mortis"].
Proof. reflexivity. Qed.

(** ** getPersonalizedRecommendations *)

Lemma byRecencyThenPopularity_trans : Transitive byRecencyThenPopularity.
Proof.
  intros a b c. unfold byRecencyThenPopularity.
  intros [Hab|[Hab Hpab]] [Hbc|[Hbc Hpbc]].
  - left. eapply Qlt_trans; eauto.
  - left. by rewrite <- Hbc.
  - left. by rewrite Hab.
  - right. split; [by rewrite Hab|]. eapply Qle_trans; eauto.
Qed.

Lemma sorted_trending idx db (p : Params.t) :
  Params.sortBy p = "trending" →
  StronglySorted byRecencyThenPopularity (selected idx db p).
Proof.
  intros Hs. apply Sorted_StronglySorted; [apply byRecencyThenPopularity_trans|].
  assert (sortOptions p = [("recency", Descending); ("popularity", Descending)]) as Ho
    by (unfold sortOptions; by rewrite Hs).
  apply selected_Sorted; rewrite Ho; [done|].
  intros a b. unfold sortedBefore, byRecencyThenPopularity. simpl.
  unfold keyCompare, fieldCompare. simpl.
  destruct (recency b ?= recency a)%Q eqn:Hr.
  - apply Qeq_alt in Hr. intros Hp. right. split; [by symmetry|].
    apply Qle_alt. by destruct (popularity b ?= popularity a)%Q.
  - apply Qlt_alt in Hr. auto.
  - done.
Qed.

Lemma StronglySorted_sublist {A} (R : relation A) (l1 l2 : list A) :
  l1 `sublist_of` l2 → StronglySorted R l2 → StronglySorted R l1.
Proof.
  induction 1 as [|x l1 l2 Hsub IH|x l1 l2 Hsub IH]; intros Hs; [done| |].
  - apply StronglySorted_inv in Hs as [Hs Hx]. constructor; [by apply IH|].
    rewrite Forall_forall in *. intros y Hy. apply Hx.
    by apply (elem_of_sublist l1).
  - apply StronglySorted_inv in Hs as [Hs _]. by apply IH.
Qed.

Lemma searchVideos_first_page idx db (p : Params.t) :
  Params.page p = 1 →
  ∃ r, searchVideos idx db p = inr r
       ∧ videos r `sublist_of` selected idx db p
       ∧ (0 < Params.limit p →
          videos r = take (Z.to_nat (Params.limit p)) (selected idx db p)).
Proof.
  intros Hpage. unfold searchVideos, skipOf, cursorSkipLimit. rewrite Hpage. simpl.
  eexists. split; [done|]. simpl. split.
  - case_decide; [done|]. apply sublist_take.
  - intros Hlimit. rewrite decide_False by lia. by rewrite Z.abs_eq by lia.
Qed.

Lemma getPersonalizedRecommendations_found (idx : textIndex) (db : list video)
    (history : list searchRow) (trendingStart queriesStart : string)
    (prefs : Preferences.t) (limit : option Z) :
  ∃ trending popular found,
    getTrendingBrawlers db (Some 5) trendingStart = inr trending
    ∧ (length trending ≤ 5)%nat
    ∧ getPopularSearchQueries history 5 queriesStart 1 = inr popular
    ∧ searchVideos idx db
        (personalizedParams prefs trending (default default_personalized_limit limit))
      = inr found
    ∧ getPersonalizedRecommendations idx db history trendingStart queriesStart
        prefs limit
      = {| rec_videos := videos found;
           rec_explanation := explain prefs (targetBrawlers prefs trending);
           rec_trendingBrawlers := trending;
           rec_popularQueries := Some popular |}.
Proof.
  unfold getPersonalizedRecommendations.
  assert (∃ trending, getTrendingBrawlers db (Some 5) trendingStart = inr trending
                      ∧ (length trending ≤ 5)%nat) as (trending & Ht & Hfive).
  { unfold getTrendingBrawlers. rewrite stage_limit_positive by done.
    eexists. split; [done|]. rewrite length_take. apply Nat.le_min_l. }
  assert (∃ popular, getPopularSearchQueries history 5 queriesStart 1 = inr popular)
    as (popular & Hp).
  { unfold getPopularSearchQueries, stage_skip. rewrite decide_True by lia.
    rewrite stage_limit_positive by done. by eexists. }
  destruct (searchVideos_first_page idx db
              (personalizedParams prefs trending
                 (default default_personalized_limit limit)))
    as (found & Hf & _); [done|].
  exists trending, popular, found. by rewrite Ht, Hp, Hf.
Qed.

(** X18. While the store answers, the personalized recommendations never
    fall back to the empty answer. At most three brawlers are searched
    for: preferred brawlers of the user when there are any, otherwise
    brawlers of the trending list. Each recommended video is a video of
    the store that has one of these brawlers, one of the first two
    preferred game modes and one of the content types, as far as these
    lists are not empty; the videos come by descending recency, then
    popularity, at most [limit] of them (6 by default), with at most
    five trending brawlers beside them. *)
Theorem personalized_recommendations (idx : textIndex) (db : list video)
    (history : list searchRow) (trendingStart queriesStart : string)
    (prefs : Preferences.t) (limit : option Z) :
  let r := getPersonalizedRecommendations idx db history trendingStart queriesStart
             prefs limit in
  let targets := targetBrawlers prefs (rec_trendingBrawlers r) in
  let modes := take 2 (default [] (Preferences.preferredGameModes prefs)) in
  let types := default ["gameplay"; "tutorial"] (Preferences.preferredContentTypes prefs) in
  is_Some (rec_popularQueries r)
  ∧ getTrendingBrawlers db (Some 5) trendingStart = inr (rec_trendingBrawlers r)
  ∧ (length (rec_trendingBrawlers r) ≤ 5)%nat
  ∧ (length targets ≤ 3)%nat
  ∧ (∀ b, b ∈ targets →
       if decide (default [] (Preferences.preferredBrawlers prefs) = [])
       then b ∈ Trending.brawler <$> rec_trendingBrawlers r
       else b ∈ default [] (Preferences.preferredBrawlers prefs))
  ∧ (∀ v, v ∈ rec_videos r →
       v ∈ db
       ∧ (targets = [] ∨ intersects (brawlers v) targets)
       ∧ (modes = [] ∨ intersects (gameModes v) modes)
       ∧ (types = [] ∨ intersects (contentType v) types))
  ∧ StronglySorted byRecencyThenPopularity (rec_videos r)
  ∧ (0 < default default_personalized_limit limit →
     (length (rec_videos r) ≤ Z.to_nat (default default_personalized_limit limit))%nat).
Proof.
  intros r targets modes types.
  destruct (getPersonalizedRecommendations_found idx db history trendingStart
              queriesStart prefs limit)
    as (trending & popular & found & Ht & Hfive & _ & Hf & Hr).
  subst targets. unfold r. rewrite Hr. clear r Hr.
  cbn [rec_videos rec_popularQueries rec_trendingBrawlers].
  set (targets := targetBrawlers prefs trending).
  set (p := personalizedParams prefs trending _) in Hf.
  destruct (searchVideos_first_page idx db p) as (found' & Hf' & Hsub & Htake);
    [done|].
  rewrite Hf in Hf'. injection Hf' as <-.
  split; [by eexists|]. split; [done|]. split; [done|].
  split; [|split; [|split; [|split]]].
  - unfold targets, targetBrawlers. case_decide; rewrite length_take; lia.
  - intros b Hb. unfold targets, targetBrawlers in Hb.
    destruct (default [] (Preferences.preferredBrawlers prefs)) as [|u us] eqn:Hu.
    + rewrite decide_True by done. rewrite decide_False in Hb by (simpl; lia).
      by apply subseteq_take in Hb.
    + rewrite decide_False by done. rewrite decide_True in Hb by (simpl; lia).
      by apply subseteq_take in Hb.
  - intros v Hv. apply (λ H, elem_of_sublist _ _ v H Hsub) in Hv.
    rewrite selected_Permutation, list_elem_of_filter, matches_satisfies in Hv.
    destruct Hv as [(_ & Hb & Hm & Hc & _) Hdb]. done.
  - apply (StronglySorted_sublist _ _ _ Hsub). by apply sorted_trending.
  - intros Hlimit. rewrite (Htake Hlimit), length_take. apply Nat.le_min_l.
Qed.

Example recommendations_for_a_mortis_player :
  rec_videos
    (getPersonalizedRecommendations sampleIndex sampleDb sampleHistory
       "2024-01-01T00:00:00.000Z" "2024-01-01T00:00:00.000Z"
       {| Preferences.preferredBrawlers := Some ["Mortis"];
          Preferences.preferredGameModes := None;
          Preferences.preferredContentTypes := None |} None)
  = [mortisColtVideo; mortisVideo].
Proof. reflexivity. Qed.

(** ** connectToDatabase *)

Lemma growingWaits_snoc (delay : Q) (count : nat) :
  ∃ next, growingWaits delay (S count) = growingWaits delay count ++ [next]
          ∧ (next == delay * (3 # 2) ^ Z.of_nat count)%Q.
Proof.
  revert delay. induction count as [|count IH]; intros delay.
  - exists delay. split; [done|]. simpl. Lqa.lra.
  - destruct (IH (delay * (3 # 2))%Q) as (next & Heq & Hnext).
    exists next. split.
    + change (growingWaits delay (S (S count)))
        with (delay :: growingWaits (delay * (3 # 2))%Q (S count)).
      by rewrite Heq.
    + rewrite Hnext, Nat2Z.inj_succ, <- Z.add_1_r.
      rewrite Qpower.Qpower_plus by discriminate. simpl. Lqa.lra.
Qed.

Lemma sumQ_growingWaits (delay : Q) (count : nat) :
  (sumQ (growingWaits delay count) == 2 * delay * ((3 # 2) ^ Z.of_nat count - 1))%Q.
Proof.
  revert delay. induction count as [|count IH]; intros delay.
  - simpl. Lqa.lra.
  - change (sumQ (growingWaits delay (S count)))
      with (delay + sumQ (growingWaits (delay * (3 # 2)) count))%Q.
    rewrite IH, Nat2Z.inj_succ, <- Z.add_1_r, Qpower.Qpower_plus by discriminate.
    set (power := ((3 # 2) ^ Z.of_nat count)%Q). simpl. Lqa.lra.
Qed.

Lemma length_growingWaits (delay : Q) (count : nat) :
  length (growingWaits delay count) = count.
Proof. revert delay. induction count; intros; simpl; auto. Qed.

Section connect.
Variable outcomes : nat → attempt.
Variable retries : Z.

Lemma connectLoop_failure (fuel tried : nat) (delay : Q) (lastError : option string)
    (st : Connection.t) (delays : list Q) :
  (tried ≤ Z.to_nat retries)%nat → (Z.to_nat retries - tried ≤ fuel)%nat →
  (∀ k, (tried ≤ k < Z.to_nat retries)%nat → outcomes k ≠ Ready) →
  connectLoop outcomes retries fuel (Z.of_nat tried + 1) delay lastError st tried delays
  = giveUp retries
      (foldl (λ e k, failureOf (outcomes k)) lastError
             (seq tried (Z.to_nat retries - tried)))
      (foldl (λ s k, afterAttempt s (outcomes k)) st
             (seq tried (Z.to_nat retries - tried)))
      (Z.to_nat retries)
      (delays ++ growingWaits delay (Z.to_nat retries - 1 - tried)).
Proof.
  revert tried delay lastError st delays.
  induction fuel as [|fuel IH]; intros tried delay lastError st delays Hle Hfuel Hfail;
    simpl.
  - replace (Z.to_nat retries - tried)%nat with 0%nat by lia.
    replace (Z.to_nat retries - 1 - tried)%nat with 0%nat by lia.
    simpl. rewrite app_nil_r. f_equal. lia.
  - destruct (decide (Z.of_nat tried + 1 <= retries)) as [Hgo|Hstop].
    + replace (Z.to_nat retries - tried)%nat with (S (Z.to_nat retries - S tried))
        by lia.
      simpl. replace (Z.of_nat tried + 1 + 1) with (Z.of_nat (S tried) + 1) by lia.
      pose proof (Hfail tried) as Hnot.
      destruct (decide (Z.of_nat tried + 1 < retries)) as [Hmore|Hlast].
      * replace (Z.to_nat retries - 1 - tried)%nat
          with (S (Z.to_nat retries - 1 - S tried)) by lia.
        destruct (outcomes tried) as [message|message|] eqn:Ho;
          [| |exfalso; apply Hnot; [lia|done]];
          (rewrite IH; [|lia|lia|intros k Hk; apply Hfail; lia]);
          simpl; by rewrite <- app_assoc.
      * destruct (outcomes tried) as [message|message|] eqn:Ho;
          [| |exfalso; apply Hnot; [lia|done]];
          (rewrite IH; [|lia|lia|intros k Hk; apply Hfail; lia]);
          replace (Z.to_nat retries - 1 - S tried)%nat with 0%nat by lia;
          replace (Z.to_nat retries - 1 - tried)%nat with 0%nat by lia; done.
    + replace (Z.to_nat retries - tried)%nat with 0%nat by lia.
      replace (Z.to_nat retries - 1 - tried)%nat with 0%nat by lia.
      simpl. rewrite app_nil_r. f_equal. lia.
Qed.

Lemma connectLoop_success (fuel tried i : nat) (delay : Q) (lastError : option string)
    (st : Connection.t) (delays : list Q) :
  (tried ≤ i)%nat → Z.of_nat i < retries → (i - tried < fuel)%nat →
  outcomes i = Ready →
  (∀ k, (tried ≤ k < i)%nat → outcomes k ≠ Ready) →
  connectLoop outcomes retries fuel (Z.of_nat tried + 1) delay lastError st tried delays
  = {| conn_outcome := inr ();
       conn_state := {| Connection.client := true; Connection.db := true;
                        Connection.connected := true |};
       conn_attempts := S i;
       conn_delays := delays ++ growingWaits delay (i - tried) |}.
Proof.
  revert tried delay lastError st delays.
  induction fuel as [|fuel IH];
    intros tried delay lastError st delays Hle Hmax Hfuel Hi Hfail; [lia|].
  simpl. rewrite decide_True by lia.
  destruct (decide (tried = i)) as [->|Hne].
  - rewrite Hi, Nat.sub_diag. simpl. by rewrite app_nil_r.
  - pose proof (Hfail tried) as Hnot.
    replace (i - tried)%nat with (S (i - S tried)) by lia.
    replace (Z.of_nat tried + 1 + 1) with (Z.of_nat (S tried) + 1) by lia.
    destruct (decide (Z.of_nat tried + 1 < retries)) as [_|?]; [|lia].
    destruct (outcomes tried) as [message|message|] eqn:Ho;
      [| |exfalso; apply Hnot; [lia|done]];
      (rewrite IH; [|lia|lia|lia|done|intros k Hk; apply Hfail; lia]);
      simpl; by rewrite <- app_assoc.
Qed.

End connect.

Lemma afterAttempt_established (st : Connection.t) (o : attempt) :
  established st → established (afterAttempt st o).
Proof. unfold established. destruct o; simpl; naive_solver. Qed.

Lemma foldl_afterAttempt_established (outcomes : nat → attempt) (st : Connection.t)
    (ks : list nat) :
  established st ∨ (∃ k message, k ∈ ks ∧ outcomes k = SetupFails message) →
  (∀ k, k ∈ ks → outcomes k ≠ Ready) →
  established (foldl (λ s k, afterAttempt s (outcomes k)) st ks).
Proof.
  revert st. induction ks as [|k ks IH]; intros st Hst Hfail; simpl.
  - destruct Hst as [Hst|(k & message & Hk & _)]; [done|]. by apply elem_of_nil in Hk.
  - apply IH; [|intros k' Hk'; by apply Hfail, list_elem_of_further].
    destruct Hst as [Hst|(k' & message & Hk' & Ho)].
    + left. by apply afterAttempt_established.
    + apply elem_of_cons in Hk' as [->|Hk']; [|right; eauto].
      left. rewrite Ho. done.
Qed.

Lemma connectToDatabase_established (st : Connection.t) (outcomes : nat → attempt)
    (retries : option Z) (delay : option Q) :
  established st →
  connectToDatabase st outcomes retries delay
  = {| conn_outcome := inr (); conn_state := st; conn_attempts := 0; conn_delays := [] |}.
Proof.
  intros (Hc & Hcl & Hdb). unfold connectToDatabase. by rewrite Hc, Hcl, Hdb.
Qed.

Lemma connectToDatabase_loop (st : Connection.t) (outcomes : nat → attempt)
    (retries : option Z) (delay : option Q) :
  ¬ established st →
  connectToDatabase st outcomes retries delay
  = connectLoop outcomes (default default_connect_retries retries)
      (Z.to_nat (default default_connect_retries retries)) 1
      (default default_connect_delay delay) None st 0 [].
Proof.
  unfold established, connectToDatabase. intros Hst.
  destruct (Connection.connected st), (Connection.client st), (Connection.db st);
    simpl; try done. naive_solver.
Qed.





Example connect_default_total_wait :
  (sumQ (conn_delays
           (connectToDatabase
              {| Connection.client := false; Connection.db := false;
                 Connection.connected := false |}
              (λ _, ConnectFails "ECONNREFUSED") None None))
   == 40625)%Q.
Proof. vm_compute. reflexivity. Qed.

(** X21. When an attempt connects and then fails while the collections
    or the indexes are set up, and no attempt completes,
    [connectToDatabase] throws its error but leaves the three variables
    of the connection set: a later call, and [ensureConnection], then
    return at once without any attempt. *)
Theorem failed_setup_leaves_connected (st : Connection.t) (outcomes : nat → attempt)
    (retries : option Z) (delay : option Q) (k : nat) (message : string) :
  let n := Z.to_nat (default default_connect_retries retries) in
  let run := connectToDatabase st outcomes retries delay in
  ¬ established st →
  (∀ j, (j < n)%nat → outcomes j ≠ Ready) →
  (k < n)%nat → outcomes k = SetupFails message →
  (∃ last, conn_outcome run
           = inl (FailedToConnect (default default_connect_retries retries) last))
  ∧ established (conn_state run)
  ∧ ∀ outcomes' retries' delay',
      connectToDatabase (conn_state run) outcomes' retries' delay'
      = {| conn_outcome := inr (); conn_state := conn_state run;
           conn_attempts := 0; conn_delays := [] |}
      ∧ ensureConnection (conn_state run) outcomes'
        = {| conn_outcome := inr (); conn_state := conn_state run;
             conn_attempts := 0; conn_delays := [] |}.
Proof.
  intros n run Hst Hfail Hk Ho. subst run.
  rewrite connectToDatabase_loop by done.
  rewrite (connectLoop_failure outcomes _ _ 0 _ None st []);
    [|lia|lia|intros j Hj; apply Hfail; lia].
  fold n. rewrite !Nat.sub_0_r.
  cbn [giveUp conn_outcome conn_state conn_attempts conn_delays app].
  assert (established (foldl (λ s j, afterAttempt s (outcomes j)) st (seq 0 n)))
    as Hset.
  { apply foldl_afterAttempt_established.
    - right. exists k, message. split; [|done]. apply elem_of_seq. lia.
    - intros j Hj. apply elem_of_seq in Hj. apply Hfail. lia. }
  split; [|split; [done|]].
  - destruct n as [|n]; [lia|]. rewrite seq_S, foldl_snoc. simpl.
    pose proof (Hfail n) as Hnot.
    destruct (outcomes n) as [last|last|]; simpl;
      [by eexists|by eexists|exfalso; apply Hnot; [lia|done]].
  - intros outcomes' retries' delay'.
    split; [by apply connectToDatabase_established|].
    unfold ensureConnection. destruct Hset as (-> & -> & ->). done.
Qed.

Lemma failed_setup_leaves_connected_witness :
  established
    (conn_state
       (connectToDatabase
          {| Connection.client := false; Connection.db := false;
             Connection.connected := false |}
          (λ k, if decide (k = 1)%nat then SetupFails "index build failed"
                else ConnectFails "ECONNREFUSED")
          None None)).
Proof.
  refine (proj1 (proj2 (failed_setup_leaves_connected
            {| Connection.client := false; Connection.db := false;
               Connection.connected := false |}
            (λ k, if decide (k = 1)%nat then SetupFails "index build failed"
                  else ConnectFails "ECONNREFUSED")
            None None 1 "index build failed" _ _ _ _))).
  - unfold established. simpl. by intros [? _].
  - intros j _. by case_decide.
  - vm_compute. lia.
  - reflexivity.
Defined.

(** ** POST /api/feedback and the cap of the session *)

(** X22. A like sent to the feedback endpoint for a stored video adds the
    brawlers of the video that the session did not have to the preferred
    brawlers of the session, and removes none: the list of the session
    has every earlier entry and grows past ten entries when there are
    more than ten in all, although the saved preferences hold ten at
    most. Once it is longer than ten, no later message of the
    conversation changes its length. *)
Theorem feedback_outgrows_session_cap (s : Session.t) (db : list video)
    (videoId : string) (v : video) (s' : Session.t) (response : feedbackResponse) :
  getVideoByYoutubeId db videoId = Some v → brawlers v ≠ [] →
  postFeedback s db true videoId "like" = Some (s', response) →
  let earlier := Session.preferredBrawlers s in
  let news := remove_dups (filter (λ b, b ∉ earlier) (brawlers v)) in
  success response = true
  ∧ earlier `prefix_of` Session.preferredBrawlers s'
  ∧ Session.preferredBrawlers s' ≡ₚ earlier ++ news
  ∧ (∀ saved,
       feedback_saved (handleVideoFeedback db true videoId "like" (Some earlier))
       = Some saved → (length saved ≤ 10)%nat)
  ∧ ((10 < length earlier + length news)%nat →
     ∀ userMessage responseMessage found gameModes contentType,
       length (Session.preferredBrawlers
                 (updateSession s' userMessage responseMessage found
                    gameModes contentType))
       = (length earlier + length news)%nat).
Proof.
  intros Hv Hb Hpost earlier news. unfold postFeedback in Hpost.
  fold earlier in Hpost.
  destruct (negb (truthy videoId) || negb (truthy "like")); [done|].
  rewrite (handleVideoFeedback_like db videoId _ v Hv Hb) in Hpost |- *.
  simpl in Hpost. injection Hpost as <- <-. fold earlier.
  cbn [Session.preferredBrawlers success default from_option Datatypes.id].
  destruct (foldl_pushIfAbsent_app earlier (brawlers v))
    as (pushed & Heq & Hnd & _ & Hin).
  rewrite Heq.
  assert (pushed ≡ₚ news) as Hperm.
  { apply NoDup_Permutation; [done|apply NoDup_remove_dups|].
    intros x. unfold news. rewrite Hin, elem_of_remove_dups, list_elem_of_filter.
    naive_solver. }
  split; [done|]. split; [by eexists|]. split; [by rewrite Hperm|]. split.
  - intros saved [= <-]. case_decide; [rewrite length_sliceLast|]; lia.
  - intros Hlong userMessage responseMessage found gameModes contentType.
    cbn [updateSession Session.preferredBrawlers].
    destruct (remember_remembered 10 (earlier ++ pushed) found) as (_ & Hkeep & _).
    rewrite Hkeep; rewrite length_app, Hperm; lia.
Qed.

Lemma feedback_outgrows_session_cap_witness :
  success {| success := true; message := feedbackMessage "like" |} = true.
Proof.
  refine (proj1 (feedback_outgrows_session_cap
            {| Session.preferredBrawlers :=
                 ["b1"; "b2"; "b3"; "b4"; "b5"; "b6"; "b7"; "b8"; "b9"; "Mortis"];
               Session.preferredGameModes := []; Session.preferredContentTypes := [];
               Session.conversationHistory := [] |}
            sampleDb "vid-mortis-colt" mortisColtVideo
            {| Session.preferredBrawlers :=
                 ["b1"; "b2"; "b3"; "b4"; "b5"; "b6"; "b7"; "b8"; "b9"; "Mortis"; "Colt"];
               Session.preferredGameModes := []; Session.preferredContentTypes := [];
               Session.conversationHistory := [] |}
            {| success := true; message := feedbackMessage "like" |} _ _ _));
    [reflexivity|discriminate|reflexivity].
Defined.

Example eleven_brawlers_in_the_session :
  postFeedback
    {| Session.preferredBrawlers :=
         ["b1"; "b2"; "b3"; "b4"; "b5"; "b6"; "b7"; "b8"; "b9"; "Mortis"];
       Session.preferredGameModes := []; Session.preferredContentTypes := [];
       Session.conversationHistory := [] |}
    sampleDb true "vid-mortis-colt" "like"
  = Some ({| Session.preferredBrawlers :=
               ["b1"; "b2"; "b3"; "b4"; "b5"; "b6"; "b7"; "b8"; "b9"; "Mortis"; "Colt"];
             Session.preferredGameModes := []; Session.preferredContentTypes := [];
             Session.conversationHistory := [] |},
          {| success := true; message := feedbackMessage "like" |})
  ∧ feedback_saved
      (handleVideoFeedback sampleDb true "vid-mortis-colt" "like"
         (Some ["b1"; "b2"; "b3"; "b4"; "b5"; "b6"; "b7"; "b8"; "b9"; "Mortis"]))
    = Some ["b2"; "b3"; "b4"; "b5"; "b6"; "b7"; "b8"; "b9"; "Mortis"; "Colt"].
Proof. split; reflexivity. Qed.

(** ** formatDuration, formatTimestamp *)

Lemma string_app_nil (b : string) : "" +:+ b = b.
Proof. reflexivity. Qed.

Lemma string_app_cons (c : ascii) (a b : string) :
  String c a +:+ b = String c (a +:+ b).
Proof. reflexivity. Qed.

Lemma colonFree_app (a b : string) :
  colonFree (a +:+ b) = colonFree a && colonFree b.
Proof.
  induction a as [|c a IH]; rewrite ?string_app_nil, ?string_app_cons; simpl; [done|].
  by rewrite IH, andb_assoc.
Qed.

Lemma colon_split_inj (a a' b b' : string) :
  colonFree a = true → colonFree a' = true →
  a +:+ ":" +:+ b = a' +:+ ":" +:+ b' → a = a' ∧ b = b'.
Proof.
  change (":" +:+ b) with (String ":" b). change (":" +:+ b') with (String ":" b').
  revert a'. induction a as [|c a IH]; intros [|c' a'];
    rewrite ?string_app_nil, ?string_app_cons; simpl.
  - intros _ _ [= ->]. done.
  - intros _ Hc' [= <- _]. done.
  - intros Hc _ [= -> _]. done.
  - intros Hc Hc' [= -> Heq].
    apply andb_true_iff in Hc as [_ Hc]. apply andb_true_iff in Hc' as [_ Hc'].
    destruct (IH a' Hc Hc' Heq) as [-> ->]. done.
Qed.

Lemma colonFree_pretty_N_go (x : N) (s : string) :
  colonFree s = true → colonFree (pretty_N_go x s) = true.
Proof.
  revert s. induction (N.lt_wf_0 x) as [x _ IH]; intros s Hs.
  assert (x = 0 ∨ 0 < x)%N as [->|Hx] by lia; [by rewrite pretty_N_go_0|].
  rewrite pretty_N_go_step by done. apply IH; [by apply N.div_lt|].
  simpl. rewrite Hs. unfold pretty_N_char. by repeat case_match.
Qed.

Lemma colonFree_pretty_Z (z : Z) : colonFree (pretty z) = true.
Proof.
  assert (∀ p : positive, colonFree (pretty p) = true) as Hpos.
  { intros p. unfold pretty, pretty_positive, pretty, pretty_N.
    case_decide; [done|]. by apply colonFree_pretty_N_go. }
  destruct z as [|p|p]; [done|apply Hpos|].
  unfold pretty at 1, pretty_Z. rewrite colonFree_app. simpl. apply Hpos.
Qed.

Lemma colonFree_padStart2 (s : string) :
  colonFree s = true → colonFree (padStart2 s) = true.
Proof. unfold padStart2. destruct s as [|c [|c' s]]; simpl; auto. Qed.

Lemma NoDup_fmap_inj {A B} (f : A → B) (l : list A) (a b : A) :
  NoDup (f <$> l) → a ∈ l → b ∈ l → f a = f b → a = b.
Proof.
  intros Hnd Ha Hb Hf.
  apply list_elem_of_lookup in Ha as [i Hi]. apply list_elem_of_lookup in Hb as [j Hj].
  assert (i = j) as ->; [|congruence].
  apply (NoDup_lookup (f <$> l) i j (f a)); [done|..]; rewrite list_lookup_fmap.
  - by rewrite Hi.
  - by rewrite Hj, Hf.
Qed.

Lemma padStart2_inj (a b : Z) :
  0 <= a < 60 → 0 <= b < 60 →
  padStart2 (pretty a) = padStart2 (pretty b) → a = b.
Proof.
  intros Ha Hb. apply (NoDup_fmap_inj (λ x : Z, padStart2 (pretty x)) (seqZ 0 60)).
  - apply (bool_decide_unpack _). vm_compute. exact I.
  - apply elem_of_seqZ. lia.
  - apply elem_of_seqZ. lia.
Qed.



Example durations_written :
  formatDuration 59 = "0:59" ∧ formatDuration 605 = "10:05"
  ∧ formatDuration 3725 = "1:02:05" ∧ formatDuration 360000 = "100:00:00"
  ∧ formatDuration (-1) = "-1:-1".
Proof. vm_compute. done. Qed.
